(** * jogadores-footure: scraper, normalizer, cleaner, chunk builder, vector store

    A shallow embedding of the Python sources under [scraper/]
    ([scraper.py], [cleaner.py], [embedder.py], [pg_vector_store.py]) and the
    properties of the specification that are settled against it.

    Conventions of the embedding:
    - a decoded JSON document is a value of [json]; a Python [dict] is an
      association list in insertion order (Python dicts are ordered and
      [json.dump] writes them in that order), [None] is [JNull];
    - a Python exception is a constructor of [exn]; a function that can raise
      returns a [result];
    - the external world (HTTP API, embedding service, database) is a set of
      section variables: the code is proved correct for every behaviour of
      those services. *)

From Stdlib Require Import ZArith Lia Ascii String.
From stdpp Require Import base option list strings gmap pretty sorting.

Local Open Scope string_scope.
Local Open Scope list_scope.
Local Open Scope Z_scope.

(* ===================================================================== *)
(** ** JSON values and the Python operations the sources use on them     *)
(* ===================================================================== *)

Module Py.

(** [JFloat m e] is the decimal number [m * 10^e]: JSON has no other
    floats, and the sources only test floats for truthiness and equality. *)
Unset Elimination Schemes.
Inductive json : Type :=
| JNull
| JBool (b : bool)
| JInt (z : Z)
| JFloat (m e : Z)
| JStr (s : string)
| JArr (items : list json)
| JObj (fields : list (string * json)).
Set Elimination Schemes.

(** Induction principle that reaches the values nested in arrays and
    objects. *)
Section json_induction.
Variable P : json → Prop.
Hypothesis Hnull : P JNull.
Hypothesis Hbool : ∀ b, P (JBool b).
Hypothesis Hint : ∀ z, P (JInt z).
Hypothesis Hfloat : ∀ m e, P (JFloat m e).
Hypothesis Hstr : ∀ s, P (JStr s).
Hypothesis Harr : ∀ items, Forall P items → P (JArr items).
Hypothesis Hobj : ∀ fields, Forall (λ kv, P kv.2) fields → P (JObj fields).

Fixpoint json_tree_ind (t : json) : P t :=
  match t with
  | JNull => Hnull
  | JBool b => Hbool b
  | JInt z => Hint z
  | JFloat m e => Hfloat m e
  | JStr s => Hstr s
  | JArr items =>
      Harr items
        ((fix all (l : list json) : Forall P l :=
            match l with
            | [] => Forall_nil_2 P
            | v :: r => Forall_cons_2 P v r (json_tree_ind v) (all r)
            end) items)
  | JObj fields =>
      Hobj fields
        ((fix all (l : list (string * json)) : Forall (λ kv, P kv.2) l :=
            match l with
            | [] => Forall_nil_2 _
            | kv :: r => Forall_cons_2 (λ kv, P kv.2) kv r (json_tree_ind kv.2) (all r)
            end) fields)
  end.
End json_induction.

(** Python exceptions that the modelled code can raise or catch. *)
Inductive exn : Type :=
| AttributeError
| TypeError
| ValueError
| KeyError
| UnboundLocalError
| RuntimeError
| HTTPError
| ConnectionError
| DatabaseError.

Inductive result (A : Type) : Type :=
| Ok (a : A)
| Raise (e : exn).
Arguments Ok {A} a.
Arguments Raise {A} e.

Definition bind {A B} (r : result A) (k : A → result B) : result B :=
  match r with
  | Ok a => k a
  | Raise e => Raise e
  end.

Notation "'let*' x ':=' r 'in' k" := (bind r (λ x, k))
  (at level 10, x name, r at level 100, k at level 200, only parsing).

(** Python truthiness: [None], [False], zero, and empty containers are
    falsy. *)
Definition truthy (v : json) : bool :=
  match v with
  | JNull => false
  | JBool b => b
  | JInt z => negb (z =? 0)
  | JFloat m _ => negb (m =? 0)
  | JStr s => negb (String.eqb s "")
  | JArr items => match items with [] => false | _ => true end
  | JObj fields => match fields with [] => false | _ => true end
  end.

(** [a or b] *)
Definition por (a b : json) : json := if truthy a then a else b.

(** [k in d] and [d[k]] on the fields of a dict. *)
Fixpoint lookup_field (k : string) (fields : list (string * json)) : option json :=
  match fields with
  | [] => None
  | (k', v) :: rest => if String.eqb k k' then Some v else lookup_field k rest
  end.

(** [d.get(k, default)] and [d.get(k)] when [d] is known to be a dict. *)
Definition dict_get (fields : list (string * json)) (k : string) (dflt : json) : json :=
  default dflt (lookup_field k fields).

(** [v.get(k, default)] on an arbitrary value: only a dict has [get]. *)
Definition get_d (v : json) (k : string) (dflt : json) : result json :=
  match v with
  | JObj fields => Ok (dict_get fields k dflt)
  | _ => Raise AttributeError
  end.

Definition get (v : json) (k : string) : result json := get_d v k JNull.

(** [d[k] = v]: an existing key keeps its position, a new key goes last. *)
Fixpoint set_field (k : string) (v : json) (fields : list (string * json))
  : list (string * json) :=
  match fields with
  | [] => [(k, v)]
  | (k', v') :: rest =>
      if String.eqb k k' then (k, v) :: rest else (k', v') :: set_field k v rest
  end.

(** [for x in v]: a list yields its items, a dict its keys, a string its
    characters; anything else is not iterable. *)
Fixpoint chars (s : string) : list json :=
  match s with
  | EmptyString => []
  | String c rest => JStr (String c EmptyString) :: chars rest
  end.

Definition iter (v : json) : result (list json) :=
  match v with
  | JArr items => Ok items
  | JObj fields => Ok (map (λ kv, JStr kv.1) fields)
  | JStr s => Ok (chars s)
  | _ => Raise TypeError
  end.

(** [for x in xs: body(x)] collecting the results; the first exception
    stops the loop. *)
Fixpoint for_each {A B} (body : A → result B) (xs : list A) : result (list B) :=
  match xs with
  | [] => Ok []
  | x :: rest =>
      let* y := body x in
      let* ys := for_each body rest in
      Ok (y :: ys)
  end.

(** A JSON number as the pair [(m, e)] standing for [m * 10^e]; [True] and
    [False] are the integers 1 and 0 in Python. *)
Definition as_number (v : json) : option (Z * Z) :=
  match v with
  | JBool b => Some (if b then 1 else 0, 0)
  | JInt z => Some (z, 0)
  | JFloat m e => Some (m, e)
  | _ => None
  end.

Definition number_eqb (a b : Z * Z) : bool :=
  let low := Z.min a.2 b.2 in
  a.1 * 10 ^ (a.2 - low) =? b.1 * 10 ^ (b.2 - low).

(** [a == b] on decoded JSON: numbers by value, strings and [None] by
    identity of value, lists item by item, dicts as sets of fields. *)
Fixpoint py_eq (a b : json) : bool :=
  match a, b with
  | JNull, JNull => true
  | JStr s, JStr t => String.eqb s t
  | JArr xs, JArr ys =>
      (fix items_eq (xs ys : list json) : bool :=
         match xs, ys with
         | [], [] => true
         | x :: xs', y :: ys' => py_eq x y && items_eq xs' ys'
         | _, _ => false
         end) xs ys
  | JObj fs, JObj gs =>
      (length fs =? length gs)%nat
      && (fix fields_eq (fs : list (string * json)) : bool :=
            match fs with
            | [] => true
            | (k, v) :: fs' =>
                match lookup_field k gs with
                | Some w => py_eq v w && fields_eq fs'
                | None => false
                end
            end) fs
  | _, _ =>
      match as_number a, as_number b with
      | Some x, Some y => number_eqb x y
      | _, _ => false
      end
  end.

(** [int(s)] for a string: optional white space around an optional sign
    and decimal digits, where single underscores may separate digits. *)
Definition digit_value (c : ascii) : option Z :=
  let n := nat_of_ascii c in
  if ((48 <=? n)%nat && (n <=? 57)%nat) then Some (Z.of_nat n - 48) else None.

Fixpoint int_digits (s : string) (acc : Z) (after_digit : bool) : option Z :=
  match s with
  | EmptyString => if after_digit then Some acc else None
  | String c rest =>
      match digit_value c with
      | Some d => int_digits rest (10 * acc + d) true
      | None =>
          if Ascii.eqb c "_" && after_digit then int_digits rest acc false else None
      end
  end.

Definition is_space (c : ascii) : bool :=
  let n := nat_of_ascii c in
  ((9 <=? n)%nat && (n <=? 13)%nat) || ((28 <=? n)%nat && (n <=? 32)%nat).

Fixpoint lstrip (s : string) : string :=
  match s with
  | EmptyString => EmptyString
  | String c rest => if is_space c then lstrip rest else s
  end.

Fixpoint rstrip (s : string) : string :=
  match s with
  | EmptyString => EmptyString
  | String c rest =>
      match rstrip rest with
      | EmptyString => if is_space c then EmptyString else String c EmptyString
      | kept => String c kept
      end
  end.

Definition int_of_str (s : string) : option Z :=
  match rstrip (lstrip s) with
  | String "+" digits => int_digits digits 0 false
  | String "-" digits => Z.opp <$> int_digits digits 0 false
  | digits => int_digits digits 0 false
  end.

(** [int(v)]: a number is truncated towards zero, a string is parsed,
    anything else is a [TypeError]. *)
Definition py_int (v : json) : result Z :=
  match v with
  | JBool b => Ok (if b then 1 else 0)
  | JInt z => Ok z
  | JFloat m e => Ok (if 0 <=? e then m * 10 ^ e else Z.quot m (10 ^ (- e)))
  | JStr s => match int_of_str s with Some z => Ok z | None => Raise ValueError end
  | _ => Raise TypeError
  end.

(** Inversion of a successful [bind]. *)

Lemma bind_ok {A B} (r : result A) (k : A → result B) (b : B) :
  bind r k = Ok b → ∃ a, r = Ok a ∧ k a = Ok b.
Proof. destruct r as [a|e]; simpl; [eauto|discriminate]. Qed.

Ltac bind_inv H :=
  repeat
    (let a := fresh "v" in
     let E := fresh "E" in
     apply bind_ok in H as (a & E & H)).

(** A computation that talks to the outside: the events it caused (requests
    sent, calls made), in order, and how it ended. *)
Definition io (E A : Type) : Type := list E * result A.

Definition io_ret {E A} (a : A) : io E A := ([], Ok a).

Definition io_lift {E A} (r : result A) : io E A := ([], r).

Definition io_emit {E} (ev : E) : io E unit := ([ev], Ok tt).

Definition io_bind {E A B} (m : io E A) (k : A → io E B) : io E B :=
  match m with
  | (t1, Ok a) => match k a with (t2, r) => (t1 ++ t2, r) end
  | (t1, Raise e) => (t1, Raise e)
  end.
Arguments io_bind : simpl never.

Notation "'let!' x ':=' m 'in' k" := (io_bind m (λ x, k))
  (at level 10, x name, m at level 100, k at level 200, only parsing).

Lemma io_bind_ok {E A B} (m : io E A) (k : A → io E B) (t : list E) (b : B) :
  io_bind m k = (t, Ok b) →
  ∃ t1 a t2, m = (t1, Ok a) ∧ k a = (t2, Ok b) ∧ t = t1 ++ t2.
Proof.
  unfold io_bind. destruct m as [t1 [a|e]]; simpl; [|discriminate].
  destruct (k a) as [t2 r] eqn:Ek. simpl. intros [= <- ->]. by exists t1, a, t2.
Qed.

Lemma io_lift_ok {E A} (r : result A) (t : list E) (a : A) :
  io_lift r = (t, Ok a) → t = [] ∧ r = Ok a.
Proof. unfold io_lift. by intros [= <- ->]. Qed.

(** A loop that threads an accumulator through such computations; the
    first exception stops it. *)
Fixpoint io_fold {E A B} (body : A → B → io E A) (acc : A) (xs : list B) : io E A :=
  match xs with
  | [] => io_ret acc
  | x :: rest =>
      let! acc' := body acc x in
      io_fold body acc' rest
  end.

End Py.

Import Py.

(* ===================================================================== *)
(** ** Tree cleaner ([cleaner.py])                                        *)
(* ===================================================================== *)

Module Cleaner.

(** [JsonCleaner.clean_data]. The Python method edits [data] in place and
    returns it. A tree decoded by [json.loads] shares no node with another,
    so the edit of one subtree is invisible from its siblings and the method
    is the function below from the tree before the call to the tree after
    it. [K] is [self.keys_to_remove], which the constructor requires to be a
    [set].

    For a dict the loop runs over a snapshot of the keys: a key of [K] is
    deleted, any other key keeps its place and its value is cleaned. For a
    list every item is cleaned. Anything else is returned as it is. *)
Fixpoint clean_data (K : gset string) (data : json) : json :=
  match data with
  | JObj fields =>
      JObj ((fix clean_fields (kvs : list (string * json)) :=
               match kvs with
               | [] => []
               | (key, value) :: rest =>
                   if decide (key ∈ K) then clean_fields rest
                   else (key, clean_data K value) :: clean_fields rest
               end) fields)
  | JArr items => JArr (map (clean_data K) items)
  | _ => data
  end.

(** The loop over the fields of a dict, as a function of its own. *)
Definition clean_fields (K : gset string) : list (string * json) → list (string * json) :=
  fix go kvs :=
    match kvs with
    | [] => []
    | (key, value) :: rest =>
        if decide (key ∈ K) then go rest
        else (key, clean_data K value) :: go rest
    end.

(** Every key of a tree, at every depth, in document order. *)
Fixpoint all_keys (t : json) : list string :=
  match t with
  | JObj fields =>
      (fix keys_of_fields (kvs : list (string * json)) : list string :=
         match kvs with
         | [] => []
         | (key, value) :: rest => key :: all_keys value ++ keys_of_fields rest
         end) fields
  | JArr items =>
      (fix keys_of_items (vs : list json) : list string :=
         match vs with
         | [] => []
         | v :: rest => all_keys v ++ keys_of_items rest
         end) items
  | _ => []
  end.

Definition keys_of_fields : list (string * json) → list string :=
  fix go kvs : list string :=
    match kvs with
    | [] => []
    | (key, value) :: rest => key :: all_keys value ++ go rest
    end.

Definition keys_of_items : list json → list string :=
  fix go vs : list string :=
    match vs with
    | [] => []
    | v :: rest => all_keys v ++ go rest
    end.

Lemma clean_data_obj K fields :
  clean_data K (JObj fields) = JObj (clean_fields K fields).
Proof. reflexivity. Qed.

Lemma all_keys_obj fields : all_keys (JObj fields) = keys_of_fields fields.
Proof. reflexivity. Qed.

Lemma all_keys_arr items : all_keys (JArr items) = keys_of_items items.
Proof. reflexivity. Qed.

Lemma keys_of_fields_clean K fields k :
  Forall (λ kv, k ∈ K → k ∉ all_keys (clean_data K kv.2)) fields →
  k ∈ K → k ∉ keys_of_fields (clean_fields K fields).
Proof.
  intros Hall Hk. induction Hall as [|[key value] rest Hv _ IH]; simpl.
  - apply not_elem_of_nil.
  - destruct (decide (key ∈ K)) as [Hin|Hout]; [exact IH|].
    simpl. rewrite not_elem_of_cons, not_elem_of_app.
    split; [intros ->; contradiction|]. split; [apply Hv, Hk|exact IH].
Qed.

Lemma keys_of_items_clean K items k :
  Forall (λ v, k ∈ K → k ∉ all_keys (clean_data K v)) items →
  k ∈ K → k ∉ keys_of_items (map (clean_data K) items).
Proof.
  intros Hall Hk. induction Hall as [|v rest Hv _ IH]; simpl.
  - apply not_elem_of_nil.
  - rewrite not_elem_of_app. split; [apply Hv, Hk|exact IH].
Qed.

Lemma clean_data_removes K t k : k ∈ K → k ∉ all_keys (clean_data K t).
Proof.
  revert t. refine (json_tree_ind _ _ _ _ _ _ _ _); simpl;
    try (intros; apply not_elem_of_nil).
  - intros items IH Hk. change (k ∉ keys_of_items (map (clean_data K) items)).
    apply keys_of_items_clean; [|exact Hk].
    eapply Forall_impl; [exact IH|]. auto.
  - intros fields IH Hk. change (k ∉ keys_of_fields (clean_fields K fields)).
    apply keys_of_fields_clean; [|exact Hk].
    eapply Forall_impl; [exact IH|]. auto.
Qed.

(** The tree of scenario B and its cleaned form. *)
Definition scenario_b_input : json :=
  JObj [("teams", JObj [("home", JObj [("slug", JStr "abc"); ("name", JStr "X")])])].

Definition scenario_b_output : json :=
  JObj [("teams", JObj [("home", JObj [("name", JStr "X")])])].

(** C5. For every JSON tree and every removal set [K], no key of [K] occurs
    at any depth of the output of [clean_data]; and cleaning
    [{"teams":{"home":{"slug":"abc","name":"X"}}}] with [K = {"slug"}] gives
    [{"teams":{"home":{"name":"X"}}}]. *)
Theorem clean_data_no_removed_key :
  (∀ (K : gset string) (t : json) (k : string),
      k ∈ K → k ∉ all_keys (clean_data K t))
  ∧ clean_data {["slug"]} scenario_b_input = scenario_b_output.
Proof.
  split.
  - intros K t k. apply clean_data_removes.
  - vm_compute. reflexivity.
Qed.

Lemma clean_fields_idem K fields :
  Forall (λ kv, clean_data K (clean_data K kv.2) = clean_data K kv.2) fields →
  clean_fields K (clean_fields K fields) = clean_fields K fields.
Proof.
  induction 1 as [|[key value] rest Hv _ IH]; simpl; [reflexivity|].
  destruct (decide (key ∈ K)) as [Hin|Hout]; [exact IH|].
  simpl. destruct (decide (key ∈ K)); [contradiction|].
  simpl in Hv. rewrite Hv. f_equal. exact IH.
Qed.

(** C6. The cleaner is idempotent: for every tree [t] and every removal
    set [K], cleaning the cleaned tree changes nothing. *)
Theorem clean_data_idempotent (K : gset string) (t : json) :
  clean_data K (clean_data K t) = clean_data K t.
Proof.
  revert t. refine (json_tree_ind _ _ _ _ _ _ _ _); try reflexivity.
  - intros items IH. simpl. f_equal. rewrite map_map.
    apply map_ext_Forall. exact IH.
  - intros fields IH. rewrite !clean_data_obj. f_equal.
    apply clean_fields_idem. exact IH.
Qed.

(** *** Further properties of the cleaner *)

Lemma clean_fields_union K1 K2 fields :
  Forall (λ kv, clean_data K1 (clean_data K2 kv.2) = clean_data (K1 ∪ K2) kv.2) fields →
  clean_fields K1 (clean_fields K2 fields) = clean_fields (K1 ∪ K2) fields.
Proof.
  induction 1 as [|[key value] rest Hv _ IH]; cbn; [reflexivity|].
  destruct (decide (key ∈ K2)) as [H2|H2].
  - rewrite decide_True by (apply elem_of_union; auto). exact IH.
  - cbn. destruct (decide (key ∈ K1)) as [H1|H1].
    + rewrite decide_True by (apply elem_of_union; auto). exact IH.
    + rewrite decide_False by (rewrite elem_of_union; tauto).
      cbn in Hv. by rewrite Hv, IH.
Qed.

(** Cleaning with [K2] and then with [K1] is cleaning once with the union
    of the two sets; the order of two passes does not matter. *)
Theorem clean_data_union (K1 K2 : gset string) (t : json) :
  clean_data K1 (clean_data K2 t) = clean_data (K1 ∪ K2) t
  ∧ clean_data K1 (clean_data K2 t) = clean_data K2 (clean_data K1 t).
Proof.
  assert (∀ A B u, clean_data A (clean_data B u) = clean_data (A ∪ B) u) as Hunion.
  { intros A B. refine (json_tree_ind _ _ _ _ _ _ _ _); try reflexivity.
    - intros items IH. cbn. f_equal. rewrite map_map. by apply map_ext_Forall.
    - intros fields IH. rewrite !clean_data_obj. f_equal. by apply clean_fields_union. }
  split; [apply Hunion|]. rewrite !Hunion. f_equal. apply (comm_L (∪)).
Qed.

Lemma clean_fields_unchanged K fields :
  Forall (λ kv, (∀ k, k ∈ K → k ∉ all_keys kv.2) → clean_data K kv.2 = kv.2) fields →
  (∀ k, k ∈ K → k ∉ keys_of_fields fields) →
  clean_fields K fields = fields.
Proof.
  induction 1 as [|[key value] rest Hv _ IH]; cbn; intros Hfree; [reflexivity|].
  destruct (decide (key ∈ K)) as [Hin|Hout].
  - destruct (Hfree key Hin). left.
  - cbn in Hv. rewrite Hv, IH; [reflexivity| |].
    + intros k Hk Hin. apply (Hfree k Hk). right. apply elem_of_app. by right.
    + intros k Hk Hin. apply (Hfree k Hk). right. apply elem_of_app. by left.
Qed.

(** A tree in which no key of [K] occurs comes back unchanged: the cleaner
    touches nothing but the removed keys and what lies below them. *)
Theorem clean_data_unchanged (K : gset string) (t : json) :
  (∀ k, k ∈ K → k ∉ all_keys t) → clean_data K t = t.
Proof.
  revert t. refine (json_tree_ind _ _ _ _ _ _ _ _); try reflexivity.
  - intros items IH Hfree. cbn. f_equal.
    change (all_keys (JArr items)) with (keys_of_items items) in Hfree.
    induction IH as [|v rest Hv _ IHrest]; cbn; [reflexivity|].
    rewrite Hv, IHrest; [reflexivity| |].
    + intros k Hk Hin. apply (Hfree k Hk). cbn. apply elem_of_app. by right.
    + intros k Hk Hin. apply (Hfree k Hk). cbn. apply elem_of_app. by left.
  - intros fields IH Hfree. rewrite clean_data_obj. f_equal.
    by apply clean_fields_unchanged.
Qed.

Lemma clean_data_unchanged_witness :
  clean_data {["slug"]} scenario_b_output = scenario_b_output.
Proof.
  apply clean_data_unchanged. intros k Hk%elem_of_singleton. subst k.
  vm_compute. intros Hin.
  repeat (apply elem_of_cons in Hin as [Hin|Hin]; [discriminate Hin|]).
  by apply elem_of_nil in Hin.
Defined.

Lemma keys_of_fields_clean_sublist K fields :
  Forall (λ kv, all_keys (clean_data K kv.2) `sublist_of` all_keys kv.2) fields →
  keys_of_fields (clean_fields K fields) `sublist_of` keys_of_fields fields.
Proof.
  induction 1 as [|[key value] rest Hv _ IH]; cbn; [constructor|].
  destruct (decide (key ∈ K)).
  - apply sublist_cons. etrans; [exact IH|]. apply sublist_inserts_l. reflexivity.
  - cbn. apply sublist_skip. by apply sublist_app.
Qed.

(** The cleaner invents nothing and reorders nothing: the keys of the
    output are, in document order, a selection of the keys of the input,
    and none of them is in [K]. *)
Theorem clean_data_keys_sublist (K : gset string) (t : json) :
  all_keys (clean_data K t) `sublist_of` all_keys t.
Proof.
  revert t. refine (json_tree_ind _ _ _ _ _ _ _ _); try reflexivity.
  - intros items IH. change (keys_of_items (map (clean_data K) items)
                             `sublist_of` keys_of_items items).
    induction IH as [|v rest Hv _ IHrest]; cbn; [constructor|]. by apply sublist_app.
  - intros fields IH. rewrite clean_data_obj, !all_keys_obj.
    by apply keys_of_fields_clean_sublist.
Qed.

End Cleaner.

(* ===================================================================== *)
(** ** Match normalizer ([scraper.py], schema transformation)             *)
(* ===================================================================== *)

Module Scraper.

(** [str.split(sep)] for a one-character separator. *)
Fixpoint split_on (sep : ascii) (s : string) : list string :=
  match s with
  | EmptyString => [EmptyString]
  | String c rest =>
      if Ascii.eqb c sep then EmptyString :: split_on sep rest
      else match split_on sep rest with
           | [] => [String c EmptyString]
           | part :: parts => String c part :: parts
           end
  end.

(** The loop of [safe_get] over the parts of the path. *)
Fixpoint safe_get_parts (cur : json) (parts : list string) (dflt : json) : json :=
  match parts with
  | [] => cur
  | part :: rest =>
      match cur with
      | JObj fields =>
          match lookup_field part fields with
          | Some v => safe_get_parts v rest dflt
          | None => dflt
          end
      | _ => dflt
      end
  end.

(** [safe_get(d, path, default)] and [safe_get(d, path)]. It never raises. *)
Definition safe_get_d (d : json) (path : string) (dflt : json) : json :=
  safe_get_parts d (split_on "." path) dflt.

Definition safe_get (d : json) (path : string) : json := safe_get_d d path JNull.

(** [a or b] where evaluating [b] may raise: [b] is evaluated only when
    [a] is falsy. *)
Definition por_m (a : json) (b : result json) : result json :=
  if truthy a then Ok a else b.

(** [str.strip()] removes the ASCII white space of Python ([\t\n\v\f\r],
    [\x1c]-[\x1f] and the space) at both ends; strings are byte strings
    here. *)

(** [v.strip()]: only a [str] has the method. *)
Definition strip (v : json) : result string :=
  match v with
  | JStr s => Ok (rstrip (lstrip s))
  | _ => Raise AttributeError
  end.

(** A loop that threads an accumulator; the first exception stops it. *)
Fixpoint fold_each {A B} (body : A → B → result A) (acc : A) (xs : list B) : result A :=
  match xs with
  | [] => Ok acc
  | x :: rest =>
      let* acc' := body acc x in
      fold_each body acc' rest
  end.

Record TeamRef : Type := mkTeamRef { id : json; name : json; slug : json }.

Definition extract_team_ref (team : json) : result TeamRef :=
  let* i := get team "id" in
  let* n := get team "name" in
  let* n := por_m n (get team "shortName") in
  let* s := get team "slug" in
  Ok (mkTeamRef i n s).

(** The body of the inner loop of [flatten_team_stats]; [out] is the pair
    of the dicts [out["home"]] and [out["away"]]. *)
Definition flatten_item (out : list (string * json) * list (string * json)) (it : json)
  : result (list (string * json) * list (string * json)) :=
  let* n := get it "name" in
  let* n := por_m n (get it "title") in
  let* name := strip (por n (JStr "")) in
  let* home_v := get it "home" in
  let* away_v := get it "away" in
  if truthy (JStr name)
  then Ok (set_field name home_v out.1, set_field name away_v out.2)
  else Ok out.

Definition flatten_group (out : list (string * json) * list (string * json)) (g : json)
  : result (list (string * json) * list (string * json)) :=
  let* items := get g "statisticsItems" in
  let* items := por_m items (get g "items") in
  let* items := iter (por items (JArr [])) in
  fold_each flatten_item out items.

Definition flatten_team_stats (stats_payload : json) : result json :=
  let* groups := get stats_payload "statistics" in
  let* groups := por_m groups (get stats_payload "groups") in
  let* groups := iter (por groups (JArr [])) in
  let* out := fold_each flatten_group ([], []) groups in
  match stats_payload with
  | JObj fields =>
      match lookup_field "expectedGoals" fields with
      | Some xg =>
          let* xh := get xg "home" in
          let* xa := get xg "away" in
          Ok (JObj [("home", JObj (set_field "xG" xh out.1));
                    ("away", JObj (set_field "xG" xa out.2))])
      | None => Ok (JObj [("home", JObj out.1); ("away", JObj out.2)])
      end
  | _ => Raise TypeError
  end.

(** The body of the loop of [lineup_to_players]: one lineup entry [pl]
    becomes one player dict. *)
Definition lineup_player (pl : json) : result json :=
  let* player := get pl "player" in
  let player := por player (JObj []) in
  let* stat := get pl "statistics" in
  let stat := por stat (JObj []) in
  let* p_id := get player "id" in
  let* p_name := get player "name" in
  let* p_slug := get player "slug" in
  let* shirt := get pl "shirtNumber" in
  let* position := get pl "position" in
  let* captain := get pl "captain" in
  let* rating := por_m (safe_get pl "rating.rating") (get pl "rating") in
  Ok (JObj [("id", p_id);
            ("name", p_name);
            ("slug", p_slug);
            ("shirtNumber", shirt);
            ("position", position);
            ("captain", captain);
            ("rating", rating);
            ("statistics", por stat JNull)]).

Definition lineup_to_players (block : json) : result (list json) :=
  if negb (truthy block) then Ok []
  else
    let* players := get_d block "players" (JArr []) in
    let* players := iter players in
    for_each lineup_player players.

(** One of [teams.home] and [teams.away] of the canonical match. *)
Definition team_json (ref : TeamRef) (lu : json) (team_stats : json) (side : string)
  : result json :=
  let* starting := lineup_to_players (por (safe_get lu "startingLineups") (JObj [])) in
  let* bench := lineup_to_players (por (safe_get lu "substitutes") (JObj [])) in
  let* stats := get_d team_stats side (JObj []) in
  Ok (JObj [("id", id ref);
            ("name", name ref);
            ("slug", slug ref);
            ("formation", safe_get lu "formation");
            ("coach", safe_get lu "coach.name");
            ("startingXI", JArr starting);
            ("bench", JArr bench);
            ("statistics", stats)]).

(** [build_match_json(core, lineups, statistics, incidents)]. An absent
    optional payload is [JNull]. *)
Definition build_match_json (core lineups statistics incidents : json) : result json :=
  let* event := get_d core "event" core in
  let* home_t := get_d event "homeTeam" (JObj []) in
  let* home_team := extract_team_ref home_t in
  let* away_t := get_d event "awayTeam" (JObj []) in
  let* away_team := extract_team_ref away_t in
  let* round_info := get event "roundInfo" in
  let* round_info := por_m round_info (get event "round") in
  let round_info := por round_info (JObj []) in
  let* season := get event "season" in
  let season := por season (JObj []) in
  let* tournament := get event "tournament" in
  let* tournament := por_m tournament (get event "uniqueTournament") in
  let tournament := por tournament (JObj []) in
  let home_score :=
    por (safe_get event "homeScore.current") (safe_get event "homeScore.normaltime") in
  let away_score :=
    por (safe_get event "awayScore.current") (safe_get event "awayScore.normaltime") in
  let* team_stats :=
    if truthy statistics then flatten_team_stats statistics
    else Ok (JObj [("home", JObj []); ("away", JObj [])]) in
  let lu_home := por (safe_get (por lineups (JObj [])) "home") (JObj []) in
  let lu_away := por (safe_get (por lineups (JObj [])) "away") (JObj []) in
  let* event_id := get event "id" in
  let* event_slug := get event "slug" in
  let* start := get event "startTimestamp" in
  let* referee := get event "referee" in
  let* venue := get event "venue" in
  let* round_id := get round_info "round" in
  let* round_name := get round_info "name" in
  let* round_name := por_m round_name (get round_info "round") in
  let round_name := por round_name JNull in
  let* season_id := get season "id" in
  let* season_name := get season "name" in
  let* season_year := get season "year" in
  let* t_id := por_m (safe_get tournament "uniqueTournament.id") (get tournament "id") in
  let* t_name := get tournament "name" in
  let t_name := por t_name (safe_get tournament "uniqueTournament.name") in
  let* home := team_json home_team lu_home team_stats "home" in
  let* away := team_json away_team lu_away team_stats "away" in
  let* inc := get (por incidents (JObj [])) "incidents" in
  let inc := por (por inc incidents) (JArr []) in
  Ok (JObj
        [("eventId", event_id);
         ("slug", event_slug);
         ("status", por (safe_get event "status.description") (safe_get event "status.type"));
         ("startTimestamp", start);
         ("referee", referee);
         ("venue", venue);
         ("round", JObj [("id", round_id); ("name", round_name)]);
         ("season", JObj [("id", season_id); ("name", season_name); ("year", season_year)]);
         ("tournament",
           JObj [("id", t_id);
                 ("name", t_name);
                 ("category", safe_get tournament "category.name")]);
         ("score",
           JObj [("home", home_score);
                 ("away", away_score);
                 ("penalties",
                   JObj [("home", safe_get event "homeScore.penalties");
                         ("away", safe_get event "awayScore.penalties")])]);
         ("teams", JObj [("home", home); ("away", away)]);
         ("incidents", inc);
         ("raw",
           JObj [("core", event);
                 ("lineups", lineups);
                 ("statistics", statistics);
                 ("incidents", incidents)])]).

Lemma for_each_Forall2 {A B} (body : A → result B) xs ys :
  for_each body xs = Ok ys → Forall2 (λ x y, body x = Ok y) xs ys.
Proof.
  revert ys. induction xs as [|x xs IH]; simpl; intros ys H.
  - injection H as <-. constructor.
  - bind_inv H. injection H as <-. constructor; auto.
Qed.

(** *** Raw payloads (C1) *)

(** The event inside its optional envelope: [core["event"]] when [core]
    has that key, [core] itself otherwise. *)
Definition unwrap_envelope (core : json) : json :=
  match core with
  | JObj fields => dict_get fields "event" core
  | _ => core
  end.

Lemma build_match_json_raw_fields core lineups statistics incidents m :
  build_match_json core lineups statistics incidents = Ok m →
  get m "raw" =
    Ok (JObj [("core", unwrap_envelope core);
              ("lineups", lineups);
              ("statistics", statistics);
              ("incidents", incidents)]).
Proof.
  unfold build_match_json. intros H.
  apply bind_ok in H as (event & Eev & H).
  assert (event = unwrap_envelope core) as ->.
  { destruct core; simpl in Eev; try discriminate. by injection Eev as <-. }
  bind_inv H. injection H as <-. reflexivity.
Qed.

(** A core payload wrapped in the [{"event": ...}] envelope. *)
Definition enveloped_core : json :=
  JObj [("event", JObj [("id", JInt 7); ("slug", JStr "a-b")])].

(** A core payload without envelope, and a lineups payload with one home
    player. *)
Definition sample_core : json :=
  JObj [("id", JInt 11); ("slug", JStr "flamengo-palmeiras");
        ("homeTeam", JObj [("id", JInt 5981); ("name", JStr "Flamengo")]);
        ("awayTeam", JObj [("id", JInt 1963); ("shortName", JStr "Palmeiras")]);
        ("homeScore", JObj [("current", JInt 2); ("normaltime", JInt 2)]);
        ("awayScore", JObj [("current", JInt 1); ("normaltime", JInt 1)])].

Definition sample_lineups : json :=
  JObj [("home",
          JObj [("formation", JStr "4-3-3");
                ("startingLineups",
                  JObj [("players",
                          JArr [JObj [("player", JObj [("id", JInt 1); ("name", JStr "A")]);
                                      ("statistics", JObj [("goals", JInt 1)])];
                                JObj [("player", JObj [("id", JInt 2); ("name", JStr "B")]);
                                      ("statistics", JObj [])]])])])].

(** C1, as stated, fails: with the envelope present the entry [raw.core]
    is the event inside the envelope, not the payload that was passed. *)
Lemma raw_core_envelope_counterexample :
  ∃ m, build_match_json enveloped_core JNull JNull JNull = Ok m
       ∧ safe_get m "raw.core" ≠ enveloped_core.
Proof.
  eexists. split; [vm_compute; reflexivity|].
  vm_compute. discriminate.
Qed.

(** Whether the core payload carries the envelope key. *)
Definition has_envelope (core : json) : bool :=
  match core with
  | JObj fields => bool_decide (is_Some (lookup_field "event" fields))
  | _ => false
  end.

Lemma unwrap_no_envelope core : has_envelope core = false → unwrap_envelope core = core.
Proof.
  destruct core as [| | | | | |fields]; try reflexivity.
  simpl. unfold dict_get. intros H%bool_decide_eq_false.
  destruct (lookup_field "event" fields); [|reflexivity].
  exfalso. apply H. eauto.
Qed.

(** C1, amended. Whenever [build_match_json] returns a match, its [raw]
    entry holds the lineups, statistics and incidents payloads as they were
    passed, and under [core] the event after the optional envelope has
    been removed: [core["event"]] when the core payload has an [event] key,
    the core payload itself otherwise. *)
Theorem build_match_json_raw core lineups statistics incidents m :
  build_match_json core lineups statistics incidents = Ok m →
  safe_get m "raw.core" = unwrap_envelope core
  ∧ safe_get m "raw.lineups" = lineups
  ∧ safe_get m "raw.statistics" = statistics
  ∧ safe_get m "raw.incidents" = incidents
  ∧ (has_envelope core = false → safe_get m "raw.core" = core).
Proof.
  intros H. pose proof (build_match_json_raw_fields _ _ _ _ _ H) as Hraw.
  destruct m as [| | | | | |fields]; simpl in Hraw; try discriminate.
  injection Hraw as Hraw. unfold dict_get in Hraw.
  assert (safe_get (JObj fields) "raw.core" = unwrap_envelope core) as Hcore.
  { unfold safe_get, safe_get_d. simpl.
    destruct (lookup_field "raw" fields); simpl in Hraw; [|discriminate].
    subst. reflexivity. }
  split; [exact Hcore|].
  repeat split;
    try (unfold safe_get, safe_get_d; simpl;
         destruct (lookup_field "raw" fields); simpl in Hraw; [|discriminate];
         subst; reflexivity).
  intros Hno. rewrite Hcore. by apply unwrap_no_envelope.
Qed.

Lemma build_match_json_raw_witness :
  ∃ m, build_match_json sample_core sample_lineups JNull JNull = Ok m
       ∧ safe_get m "raw.core" = sample_core
       ∧ safe_get m "raw.lineups" = sample_lineups.
Proof.
  eexists. split; [vm_compute; reflexivity|].
  match goal with
  | |- safe_get ?m _ = _ ∧ _ =>
      destruct (build_match_json_raw sample_core sample_lineups JNull JNull m)
        as (_ & Hl & _ & _ & Hc); [vm_compute; reflexivity|]
  end.
  split; [apply Hc; vm_compute; reflexivity|exact Hl].
Defined.

(** *** Score (C4) *)

(** What the normalizer computes for both scores: Python's [or] between
    the [current] and the [normaltime] fields of the event. *)
Lemma build_match_json_score core lineups statistics incidents m :
  build_match_json core lineups statistics incidents = Ok m →
  let event := unwrap_envelope core in
  safe_get m "score.home" =
    por (safe_get event "homeScore.current") (safe_get event "homeScore.normaltime")
  ∧ safe_get m "score.away" =
    por (safe_get event "awayScore.current") (safe_get event "awayScore.normaltime").
Proof.
  unfold build_match_json. intros H.
  apply bind_ok in H as (event & Eev & H).
  assert (event = unwrap_envelope core) as ->.
  { destruct core; simpl in Eev; try discriminate. by injection Eev as <-. }
  bind_inv H. injection H as <-. split; reflexivity.
Qed.

(** A truthy [current] field is the score. *)
Lemma score_home_current core lineups statistics incidents m :
  build_match_json core lineups statistics incidents = Ok m →
  truthy (safe_get (unwrap_envelope core) "homeScore.current") = true →
  safe_get m "score.home" = safe_get (unwrap_envelope core) "homeScore.current".
Proof.
  intros H Ht. destruct (build_match_json_score _ _ _ _ _ H) as [-> _].
  unfold por. by rewrite Ht.
Qed.

(** An event in play at 0-1: the home side has [current = 0] and no
    [normaltime] field yet. *)
Definition nil_one_core : json :=
  JObj [("id", JInt 21);
        ("homeScore", JObj [("current", JInt 0); ("display", JInt 0); ("period1", JInt 0)]);
        ("awayScore", JObj [("current", JInt 1); ("display", JInt 1); ("period1", JInt 1)])].

(** An event whose [current] home score 0 differs from its [normaltime]
    field. *)
Definition nil_current_core : json :=
  JObj [("id", JInt 22);
        ("homeScore", JObj [("current", JInt 0); ("normaltime", JInt 3)]);
        ("awayScore", JObj [("current", JInt 1); ("normaltime", JInt 1)])].

(** C4 on the code: a [current] score of zero is present but falsy, so
    [or] discards it. The canonical [score.home] is then [null] when there
    is no [normaltime] field, and the [normaltime] field when there is
    one, although [current] is present in both events. *)
Theorem score_current_zero_discarded :
  (∃ m, build_match_json nil_one_core JNull JNull JNull = Ok m
        ∧ safe_get nil_one_core "homeScore.current" = JInt 0
        ∧ safe_get m "score.home" = JNull
        ∧ safe_get m "score.away" = JInt 1)
  ∧ (∃ m, build_match_json nil_current_core JNull JNull JNull = Ok m
          ∧ safe_get nil_current_core "homeScore.current" = JInt 0
          ∧ safe_get m "score.home" = JInt 3).
Proof.
  split; eexists; (split; [vm_compute; reflexivity|]); repeat split.
Qed.

(** *** Player statistics (C10) *)

(** The lineup entries that [lineup_to_players] walks through: the items
    of [block["players"]] for a truthy block, none for a falsy one. *)
Definition lineup_entries (block : json) : list json :=
  if truthy block then
    match block with
    | JObj fields =>
        match iter (dict_get fields "players" (JArr [])) with
        | Ok entries => entries
        | Raise _ => []
        end
    | _ => []
    end
  else [].

Definition nonempty_map (v : json) : Prop := ∃ kv fields, v = JObj (kv :: fields).

Lemma safe_get_statistics fields :
  safe_get (JObj fields) "statistics" = dict_get fields "statistics" JNull.
Proof. reflexivity. Qed.

Lemma lineup_player_statistics pl p :
  lineup_player pl = Ok p →
  let src := safe_get pl "statistics" in
  let st := safe_get p "statistics" in
  st ≠ JObj []
  ∧ (src = JObj [] → st = JNull)
  ∧ (st = JNull ∨ (st = src ∧ truthy src = true))
  ∧ (∀ fields, src = JObj fields → st = JNull ∨ nonempty_map st)
  ∧ st = (if truthy src then src else JNull).
Proof.
  unfold lineup_player. intros H.
  destruct pl as [| | | | | |pf]; try discriminate H.
  apply bind_ok in H as (player & Epl & H). simpl in Epl. injection Epl as <-.
  apply bind_ok in H as (stat & Est & H). simpl in Est. injection Est as <-.
  bind_inv H. injection H as <-.
  rewrite !safe_get_statistics.
  set (src := dict_get pf "statistics" JNull).
  assert (∀ st, dict_get [("id", v); ("name", v0); ("slug", v1); ("shirtNumber", v2);
                          ("position", v3); ("captain", v4); ("rating", v5);
                          ("statistics", st)] "statistics" JNull = st) as ->
    by reflexivity.
  unfold por. destruct (truthy src) eqn:Ht; simpl; rewrite ?Ht; simpl.
  - split; [|split; [|split; [|split]]].
    + intros Heq. rewrite Heq in Ht. discriminate.
    + intros Heq. rewrite Heq in Ht. discriminate.
    + right. done.
    + intros fields Heq. right. rewrite Heq in *.
      destruct fields as [|kv fields]; [discriminate|]. by exists kv, fields.
    + done.
  - split; [discriminate|]. split; [done|]. split; [by left|].
    split; [intros; by left|done].
Qed.

(** A lineup entry whose [statistics] is a number, not an object. *)
Definition numeric_statistics_block : json :=
  JObj [("players",
          JArr [JObj [("player", JObj [("id", JInt 1); ("name", JStr "A")]);
                      ("statistics", JInt 7)]])].

(** C10, as stated, fails: a truthy [statistics] of the source entry goes
    through unchanged, whatever it is, so the player has the statistics
    [7], which is neither [null] nor a non-empty map. *)
Lemma statistics_not_a_map_counterexample :
  ∃ p, lineup_to_players numeric_statistics_block = Ok [p]
       ∧ safe_get p "statistics" = JInt 7
       ∧ safe_get p "statistics" ≠ JNull
       ∧ ¬ nonempty_map (safe_get p "statistics").
Proof.
  eexists. split; [vm_compute; reflexivity|].
  split; [vm_compute; reflexivity|]. split; [vm_compute; discriminate|].
  intros (kv & fields & H). vm_compute in H. discriminate H.
Qed.

(** C10, amended. Every player that [lineup_to_players] produces has a
    [statistics] field that is never the empty map: it is [null] when the
    statistics of the source entry is absent, [null], an empty object or
    any other falsy value, and the source's own statistics, unchanged,
    otherwise; hence it is [null] or a non-empty map whenever the source
    statistics is a map, and an empty statistics object is normalized to
    [null]. *)
Theorem lineup_to_players_statistics (block : json) (players : list json) :
  lineup_to_players block = Ok players →
  Forall2 (λ pl p,
      let src := safe_get pl "statistics" in
      let st := safe_get p "statistics" in
      st ≠ JObj []
      ∧ (src = JObj [] → st = JNull)
      ∧ (st = JNull ∨ (st = src ∧ truthy src = true))
      ∧ (∀ fields, src = JObj fields → st = JNull ∨ nonempty_map st)
      ∧ st = (if truthy src then src else JNull))
    (lineup_entries block) players.
Proof.
  unfold lineup_to_players, lineup_entries. intros H.
  destruct (truthy block); simpl in H; [|injection H as <-; constructor].
  destruct block as [| | | | | |bf]; try discriminate H.
  apply bind_ok in H as (ps & Eps & H). simpl in Eps. injection Eps as <-.
  apply bind_ok in H as (entries & Eit & H). rewrite Eit.
  apply for_each_Forall2 in H.
  eapply Forall2_impl; [exact H|].
  intros pl p Hp. by apply lineup_player_statistics.
Qed.

(** The starting block of [sample_lineups]: one player with statistics,
    one with an empty statistics object. *)
Definition sample_block : json := safe_get sample_lineups "home.startingLineups".

Lemma lineup_to_players_statistics_witness :
  ∃ players,
    lineup_to_players sample_block = Ok players
    ∧ map (λ p, safe_get p "statistics") players = [JObj [("goals", JInt 1)]; JNull]
    ∧ Forall2 (λ pl p, safe_get p "statistics" ≠ JObj [])
        (lineup_entries sample_block) players.
Proof.
  eexists. split; [vm_compute; reflexivity|]. split; [vm_compute; reflexivity|].
  eapply Forall2_impl.
  - apply (lineup_to_players_statistics sample_block). vm_compute. reflexivity.
  - intros pl p H. exact (proj1 H).
Defined.

(** *** Further properties of the normalizer *)

Lemma split_on_not_nil sep s : split_on sep s ≠ [].
Proof.
  destruct s as [|c rest]; simpl; [done|].
  destruct (Ascii.eqb c sep); [done|]. by destruct (split_on sep rest).
Qed.

Lemma split_on_app sep a b :
  split_on sep (a +:+ String sep b) = split_on sep a ++ split_on sep b.
Proof.
  induction a as [|c a IH]; simpl.
  - by rewrite Ascii.eqb_refl.
  - destruct (Ascii.eqb c sep); [by rewrite IH|]. rewrite IH.
    pose proof (split_on_not_nil sep a). by destruct (split_on sep a).
Qed.

Lemma safe_get_parts_app d ps qs :
  qs ≠ [] →
  safe_get_parts d (ps ++ qs) JNull = safe_get_parts (safe_get_parts d ps JNull) qs JNull.
Proof.
  intros Hqs. revert d. induction ps as [|p ps IH]; intros d; cbn; [done|].
  destruct d as [| | | | | |fields]; try (by destruct qs).
  destruct (lookup_field p fields); [apply IH|by destruct qs].
Qed.

(** A dotted path is walked part by part: looking up ["a.b"] is looking up
    ["b"] in what the lookup of ["a"] gives, a missing or non-dict step
    giving [None] either way. *)
Theorem safe_get_compose (d : json) (a b : string) :
  safe_get d (a +:+ "." +:+ b) = safe_get (safe_get d a) b.
Proof.
  unfold safe_get, safe_get_d.
  change (a +:+ "." +:+ b) with (a +:+ String "." b).
  rewrite split_on_app. apply safe_get_parts_app, split_on_not_nil.
Qed.

(** The keys of a dict, in order; [None] for any other value. *)
Definition keys_of (v : json) : option (list string) :=
  match v with
  | JObj fields => Some (map fst fields)
  | _ => None
  end.

Definition player_keys : list string :=
  ["id"; "name"; "slug"; "shirtNumber"; "position"; "captain"; "rating"; "statistics"].

Definition team_keys : list string :=
  ["id"; "name"; "slug"; "formation"; "coach"; "startingXI"; "bench"; "statistics"].

Definition match_keys : list string :=
  ["eventId"; "slug"; "status"; "startTimestamp"; "referee"; "venue"; "round"; "season";
   "tournament"; "score"; "teams"; "incidents"; "raw"].

Lemma lineup_player_keys pl p : lineup_player pl = Ok p → keys_of p = Some player_keys.
Proof. unfold lineup_player. intros H. bind_inv H. by injection H as <-. Qed.

(** What [lineup_to_players] makes of one lineup entry [pl]: the player
    [p] has the eight keys; its identity is read under [pl["player"]], its
    shirt number, position and captaincy on the entry itself, its rating
    under [rating.rating] or else [rating], and its statistics are those of
    the entry when truthy, [null] otherwise. *)
Definition player_of (pl p : json) : Prop :=
  keys_of p = Some player_keys
  ∧ safe_get p "id" = safe_get pl "player.id"
  ∧ safe_get p "name" = safe_get pl "player.name"
  ∧ safe_get p "slug" = safe_get pl "player.slug"
  ∧ safe_get p "shirtNumber" = safe_get pl "shirtNumber"
  ∧ safe_get p "position" = safe_get pl "position"
  ∧ safe_get p "captain" = safe_get pl "captain"
  ∧ safe_get p "rating" = por (safe_get pl "rating.rating") (safe_get pl "rating")
  ∧ safe_get p "statistics"
    = (if truthy (safe_get pl "statistics") then safe_get pl "statistics" else JNull).

Lemma lineup_player_identity pf k full v :
  (k = "id" ∧ full = "player.id") ∨ (k = "name" ∧ full = "player.name")
  ∨ (k = "slug" ∧ full = "player.slug") →
  get (por (dict_get pf "player" JNull) (JObj [])) k = Ok v →
  safe_get (JObj pf) full = v.
Proof.
  intros Hk. unfold safe_get, safe_get_d, dict_get, por.
  destruct Hk as [[-> ->]|[[-> ->]|[-> ->]]]; simpl;
    (destruct (lookup_field "player" pf) as [pv|]; simpl; [|by intros [= <-]]);
    (destruct pv as [|b|z|m e|s|items|plf]; simpl; intros Hg;
     try (destruct plf as [|kv plf]; simpl in Hg);
     repeat (case_match; simpl in Hg);
     try discriminate Hg; injection Hg as <-; try reflexivity;
     unfold dict_get;
     match goal with Hl : lookup_field _ _ = _ |- _ => by rewrite Hl end).
Qed.

Lemma lineup_player_fields pl p : lineup_player pl = Ok p → player_of pl p.
Proof.
  unfold lineup_player, player_of. intros H.
  destruct pl as [| | | | | |pf]; try discriminate H.
  apply bind_ok in H as (player & Epl & H). simpl in Epl. injection Epl as <-.
  apply bind_ok in H as (stat & Est & H). simpl in Est. injection Est as <-.
  apply bind_ok in H as (p_id & Eid & H).
  apply bind_ok in H as (p_name & Ename & H).
  apply bind_ok in H as (p_slug & Eslug & H).
  apply bind_ok in H as (shirt & Eshirt & H). simpl in Eshirt. injection Eshirt as <-.
  apply bind_ok in H as (position & Epos & H). simpl in Epos. injection Epos as <-.
  apply bind_ok in H as (captain & Ecap & H). simpl in Ecap. injection Ecap as <-.
  apply bind_ok in H as (rating & Erating & H).
  injection H as <-.
  split; [reflexivity|].
  split; [symmetry; eapply lineup_player_identity; [|exact Eid]; auto|].
  split; [symmetry; eapply lineup_player_identity; [|exact Ename]; auto|].
  split; [symmetry; eapply lineup_player_identity; [|exact Eslug]; auto|].
  do 3 (split; [reflexivity|]).
  split.
  - unfold por_m in Erating. unfold por.
    destruct (truthy (safe_get (JObj pf) "rating.rating")).
    + by injection Erating as <-.
    + simpl in Erating. by injection Erating as <-.
  - rewrite !safe_get_statistics. unfold dict_get at 1. simpl.
    unfold por. destruct (truthy (dict_get pf "statistics" JNull)) eqn:Ht; simpl.
    + by rewrite Ht.
    + done.
Qed.

(** [lineup_to_players] gives no player for a falsy block, and otherwise
    one player per lineup entry, in the order of the entries: the i-th
    player is the one made of the i-th entry, a dict with the same eight
    keys whose fields are read from that entry. *)
Theorem lineup_to_players_shape (block : json) (players : list json) :
  lineup_to_players block = Ok players →
  length players = length (lineup_entries block)
  ∧ Forall (λ p, keys_of p = Some player_keys) players
  ∧ (truthy block = false → players = [])
  ∧ Forall2 player_of (lineup_entries block) players.
Proof.
  unfold lineup_to_players, lineup_entries. intros H.
  destruct (truthy block); cbn in H.
  - destruct block as [| | | | | |bf]; try discriminate H.
    apply bind_ok in H as (ps & Eps & H). cbn in Eps. injection Eps as <-.
    apply bind_ok in H as (entries & -> & H).
    apply for_each_Forall2 in H. split; [by rewrite (Forall2_length _ _ _ H)|].
    split; [|split; [done|]].
    + clear -H. induction H as [|pl p pls ps Hp _ IH]; constructor; [|done].
      by eapply lineup_player_keys.
    + eapply Forall2_impl; [exact H|]. intros pl p Hp. by apply lineup_player_fields.
  - injection H as <-. split; [done|]. split; [done|]. split; [done|constructor].
Qed.

(** The two entries of [sample_block] come out in their order. *)
Lemma lineup_to_players_shape_witness :
  ∃ players,
    lineup_to_players sample_block = Ok players
    ∧ length players = 2%nat
    ∧ map (λ pl, safe_get pl "player.name") (lineup_entries sample_block)
      = [JStr "A"; JStr "B"]
    ∧ map (λ p, safe_get p "name") players = [JStr "A"; JStr "B"].
Proof.
  eexists. split; [vm_compute; reflexivity|].
  split; [|split; vm_compute; reflexivity].
  match goal with
  | |- length ?ps = _ =>
      rewrite (proj1 (lineup_to_players_shape sample_block ps ltac:(vm_compute; reflexivity)))
  end.
  vm_compute. reflexivity.
Defined.

Lemma team_json_keys ref lu team_stats side t :
  team_json ref lu team_stats side = Ok t → keys_of t = Some team_keys.
Proof. unfold team_json. intros H. bind_inv H. by injection H as <-. Qed.

(** Whatever the payloads hold, a match that [build_match_json] returns
    has every field of the canonical schema: the thirteen top-level keys,
    the three keys of [score], the two sides of [teams] with eight keys
    each, and the four keys of [raw]. A field that the source omits is
    there with a default, never missing. *)
Theorem build_match_json_schema core lineups statistics incidents m :
  build_match_json core lineups statistics incidents = Ok m →
  keys_of m = Some match_keys
  ∧ keys_of (safe_get m "round") = Some ["id"; "name"]
  ∧ keys_of (safe_get m "season") = Some ["id"; "name"; "year"]
  ∧ keys_of (safe_get m "tournament") = Some ["id"; "name"; "category"]
  ∧ keys_of (safe_get m "score") = Some ["home"; "away"; "penalties"]
  ∧ keys_of (safe_get m "score.penalties") = Some ["home"; "away"]
  ∧ keys_of (safe_get m "teams.home") = Some team_keys
  ∧ keys_of (safe_get m "teams.away") = Some team_keys
  ∧ keys_of (safe_get m "raw") = Some ["core"; "lineups"; "statistics"; "incidents"].
Proof.
  unfold build_match_json. intros H. bind_inv H. injection H as <-.
  repeat match goal with
         | E : team_json _ _ _ _ = Ok _ |- _ => apply team_json_keys in E
         end.
  repeat split; try reflexivity; assumption.
Qed.

Lemma build_match_json_schema_witness :
  ∃ m, build_match_json sample_core sample_lineups JNull JNull = Ok m
       ∧ keys_of m = Some match_keys.
Proof.
  eexists. split; [vm_compute; reflexivity|].
  match goal with
  | |- keys_of ?m = _ =>
      apply (build_match_json_schema sample_core sample_lineups JNull JNull m)
  end.
  vm_compute. reflexivity.
Defined.

Lemma fold_each_invariant {A B} (P : A → Prop) (body : A → B → result A) xs acc r :
  (∀ a x a', P a → body a x = Ok a' → P a') →
  P acc → fold_each body acc xs = Ok r → P r.
Proof.
  intros Hbody. revert acc. induction xs as [|x xs IH]; cbn; intros acc Hacc H.
  - by injection H as <-.
  - apply bind_ok in H as (acc' & Hstep & H). eapply IH; [|exact H]. eauto.
Qed.

Lemma set_field_keys k v (fields : list (string * json)) :
  map fst (set_field k v fields)
  = if bool_decide (k ∈ map fst fields) then map fst fields else map fst fields ++ [k].
Proof.
  induction fields as [|[k' v'] rest IH]; cbn; [done|].
  destruct (String.eqb_spec k k') as [->|Hne]; cbn.
  - rewrite bool_decide_eq_true_2; [done|left].
  - rewrite IH. destruct (bool_decide (k ∈ map fst rest)) eqn:Hin.
    + apply bool_decide_eq_true in Hin. rewrite bool_decide_eq_true_2; [done|by right].
    + apply bool_decide_eq_false in Hin. rewrite bool_decide_eq_false_2; [done|].
      intros [?|?]%elem_of_cons; done.
Qed.

(** What the two sides of the flattened statistics have in common: the
    same names in the same order, each once, none empty. *)
Definition aligned (out : list (string * json) * list (string * json)) : Prop :=
  map fst out.1 = map fst out.2
  ∧ NoDup (map fst out.1)
  ∧ ("" ∉ map fst out.1).

Lemma aligned_set name hv av out :
  name ≠ "" → aligned out → aligned (set_field name hv out.1, set_field name av out.2).
Proof.
  intros Hname (Hsame & Hnd & Hne). unfold aligned. cbn [fst snd].
  rewrite !set_field_keys, <- Hsame.
  destruct (bool_decide (name ∈ map fst out.1)) eqn:Hin; [done|].
  apply bool_decide_eq_false in Hin. split; [done|]. split.
  - apply NoDup_app. split; [done|]. split; [|apply NoDup_singleton].
    intros k Hk Hk'%list_elem_of_singleton. by subst.
  - intros [?|Hk%list_elem_of_singleton]%elem_of_app; [done|]. by apply Hname.
Qed.

Lemma flatten_item_aligned out it out' :
  aligned out → flatten_item out it = Ok out' → aligned out'.
Proof.
  unfold flatten_item. intros Hal H. bind_inv H.
  destruct (truthy (JStr v1)) eqn:Hname; injection H as <-; [|done].
  apply aligned_set; [|done]. intros ->. discriminate Hname.
Qed.

Lemma flatten_group_aligned out g out' :
  aligned out → flatten_group out g = Ok out' → aligned out'.
Proof.
  unfold flatten_group. intros Hal H. bind_inv H.
  eapply (fold_each_invariant aligned); [|exact Hal|exact H].
  intros a x a' Ha Hstep. by eapply flatten_item_aligned.
Qed.

(** The flattened team statistics are a dict with the two sides [home]
    and [away], whose names are the same in the same order, each once and
    none empty: every statistic has a value on either side, and a name met
    twice keeps its first position with the last values. With an
    [expectedGoals] block in the payload both sides have an ["xG"] entry. *)
Theorem flatten_team_stats_aligned (stats_payload out : json) :
  flatten_team_stats stats_payload = Ok out →
  ∃ home away,
    out = JObj [("home", JObj home); ("away", JObj away)]
    ∧ map fst home = map fst away
    ∧ NoDup (map fst home)
    ∧ ("" ∉ map fst home)
    ∧ (safe_get stats_payload "expectedGoals" ≠ JNull → "xG" ∈ map fst home).
Proof.
  unfold flatten_team_stats. intros H.
  apply bind_ok in H as (g0 & _ & H). apply bind_ok in H as (g1 & _ & H).
  apply bind_ok in H as (groups & _ & H). apply bind_ok in H as (acc & Hfold & H).
  assert (aligned acc) as Hal.
  { assert (aligned ([], [])) as Hstart.
    { unfold aligned. cbn. split; [done|]. split; [constructor|apply not_elem_of_nil]. }
    eapply (fold_each_invariant aligned); [|exact Hstart|exact Hfold].
    intros a x a' Ha Hstep. by eapply flatten_group_aligned. }
  destruct stats_payload as [| | | | | |fields]; try discriminate H.
  change (safe_get (JObj fields) "expectedGoals")
    with (dict_get fields "expectedGoals" JNull).
  unfold dict_get. destruct (lookup_field "expectedGoals" fields) as [xg|].
  - bind_inv H. injection H as <-.
    destruct (aligned_set "xG" v v0 acc ltac:(discriminate) Hal) as (Hsame & Hnd & Hne).
    do 2 eexists. split; [reflexivity|]. split; [done|]. split; [done|]. split; [done|].
    intros _. cbn [fst]. rewrite set_field_keys.
    destruct (bool_decide ("xG" ∈ map fst acc.1)) eqn:Hin.
    + by apply bool_decide_eq_true in Hin.
    + apply elem_of_app. right. by apply list_elem_of_singleton.
  - injection H as <-. destruct Hal as (Hsame & Hnd & Hne).
    do 2 eexists. split; [reflexivity|]. split; [done|]. split; [done|]. split; [done|].
    intros Habs. by destruct Habs.
Qed.

(** A statistics payload with one group, a repeated name and an
    expected-goals block. *)
Definition sample_statistics : json :=
  JObj [("statistics",
          JArr [JObj [("groupName", JStr "Attack");
                      ("statisticsItems",
                        JArr [JObj [("name", JStr " Shots "); ("home", JInt 9); ("away", JInt 4)];
                              JObj [("title", JStr "Corners"); ("home", JInt 5);
                                    ("away", JInt 2)];
                              JObj [("name", JStr "Shots"); ("home", JInt 10);
                                    ("away", JInt 4)]])]]);
        ("expectedGoals", JObj [("home", JFloat 17 (-1)); ("away", JFloat 6 (-1))])].

Lemma flatten_team_stats_aligned_witness :
  ∃ home away,
    flatten_team_stats sample_statistics = Ok (JObj [("home", JObj home); ("away", JObj away)])
    ∧ map fst home = ["Shots"; "Corners"; "xG"]
    ∧ map fst home = map fst away.
Proof.
  destruct (flatten_team_stats_aligned sample_statistics
              (JObj [("home", JObj [("Shots", JInt 10); ("Corners", JInt 5);
                                   ("xG", JFloat 17 (-1))]);
                     ("away", JObj [("Shots", JInt 4); ("Corners", JInt 2);
                                   ("xG", JFloat 6 (-1))])]))
    as (home & away & Hout & Hsame & _); [vm_compute; reflexivity|].
  injection Hout as <- <-. do 2 eexists. split; [vm_compute; reflexivity|]. done.
Defined.

End Scraper.

(* ===================================================================== *)
(** ** Discovery and collection ([scraper.py], client and orchestration)  *)
(* ===================================================================== *)

Module Collector.
Import Scraper.

(** The requests of [SofaScoreClient], one constructor per path template.
    A round id is whatever JSON value the API returned for it. *)
Inductive request : Type :=
| Seasons (tournament : Z)                 (* /unique-tournament/{t}/seasons *)
| Rounds (tournament season : Z)           (* .../season/{s}/rounds *)
| EventsRounds (tournament season : Z)     (* .../season/{s}/events/rounds *)
| SeasonEvents (tournament season : Z)     (* .../season/{s}/events *)
| SeasonMatches (tournament season : Z)    (* .../season/{s}/matches *)
| RoundEvents (tournament season : Z) (round : json)  (* .../season/{s}/round/{r}/events *)
| EventsRound (tournament season : Z) (round : json)  (* .../season/{s}/events/round/{r} *)
| EventCore (event : json)                 (* /event/{id} *)
| EventLineups (event : json)              (* /event/{id}/lineups *)
| EventStatistics (event : json)           (* /event/{id}/statistics *)
| EventIncidents (event : json).           (* /event/{id}/incidents *)

(** The season id a request is about, if it is about a season. *)
Definition season_of (req : request) : option Z :=
  match req with
  | Rounds _ s | EventsRounds _ s | SeasonEvents _ s | SeasonMatches _ s
  | RoundEvents _ s _ | EventsRound _ s _ => Some s
  | _ => None
  end.

Definition is_seasons_request (req : request) : bool :=
  match req with Seasons _ => true | _ => false end.

(** [try: body except requests.HTTPError: handler] *)
Definition except_http {A} (body : io request A) (handler : io request A) : io request A :=
  match body.2 with
  | Raise HTTPError => (body.1 ++ handler.1, handler.2)
  | _ => body
  end.

Definition TOURNAMENT_ID : Z := 325.

Section client.

(** The API: the decoded body of the answer to a request, or the exception
    that [_get] raises for it ([HTTPError] from [raise_for_status], or
    another one from the transport or the decoder). *)
Variable api : request → result json.

(** [SofaScoreClient._get] *)
Definition _get (req : request) : io request json := ([req], api req).

Definition get_seasons (tournament_id : Z) : io request json :=
  let! data := _get (Seasons tournament_id) in
  io_lift (get_d data "seasons" (JArr [])).

(** The two loops of [get_season_id_by_year]: the first season whose
    [year] equals the requested one, then the first whose [name] prints
    like it. [str(v) == str(year)] holds exactly when [v] is the string of
    the decimal digits of [year] or the integer [year]: the [str] of every
    other JSON value has a letter, a point, a bracket or a brace. *)
Fixpoint season_by_year (seasons : list json) (year : Z) : result (option json) :=
  match seasons with
  | [] => Ok None
  | s :: rest =>
      let* y := get s "year" in
      if py_eq y (JInt year) then
        let* i := get s "id" in Ok (Some i)
      else season_by_year rest year
  end.

Definition str_eq_int (v : json) (year : Z) : bool :=
  match v with
  | JStr s => String.eqb s (pretty year)
  | JInt z => z =? year
  | _ => false
  end.

Fixpoint season_by_name (seasons : list json) (year : Z) : result (option json) :=
  match seasons with
  | [] => Ok None
  | s :: rest =>
      let* n := get s "name" in
      if str_eq_int n year then
        let* i := get s "id" in Ok (Some i)
      else season_by_name rest year
  end.

Definition get_season_id_by_year (tournament_id : Z) (year : Z) : io request json :=
  let! seasons := get_seasons tournament_id in
  let! seasons := io_lift (iter seasons) in
  let! by_year := io_lift (season_by_year seasons year) in
  match by_year with
  | Some i => io_ret i
  | None =>
      let! by_name := io_lift (season_by_name seasons year) in
      io_ret (default JNull by_name)
  end.

(** The loop shared by [get_rounds], [get_events_by_season] and
    [get_events_by_round]: the first path that answers with a truthy
    [data[k1] or data[k2]] wins; an [HTTPError] moves on to the next path;
    with no path left the result is the empty list. *)
Fixpoint first_non_empty (k1 k2 : string) (paths : list request) : io request json :=
  match paths with
  | [] => io_ret (JArr [])
  | p :: rest =>
      let attempt : io request (option json) :=
        except_http
          (let! data := _get p in
           let! found := io_lift (let* a := get data k1 in
                                  let* b := por_m a (get data k2) in
                                  Ok (por b (JArr []))) in
           io_ret (if truthy found then Some found else None))
          (io_ret None) in
      let! tried := attempt in
      match tried with
      | Some found => io_ret found
      | None => first_non_empty k1 k2 rest
      end
  end.

Definition get_rounds (tournament_id season_id : Z) : io request json :=
  first_non_empty "rounds" "data"
    [Rounds tournament_id season_id; EventsRounds tournament_id season_id].

Definition get_events_by_season (tournament_id season_id : Z) : io request json :=
  first_non_empty "events" "matches"
    [SeasonEvents tournament_id season_id; SeasonMatches tournament_id season_id].

Definition get_events_by_round (tournament_id season_id : Z) (round_id : json) : io request json :=
  first_non_empty "events" "matches"
    [RoundEvents tournament_id season_id round_id;
     EventsRound tournament_id season_id round_id].

(** [safe_get(ev, "roundInfo.round") or safe_get(ev, "round.round") or 0] *)
Definition event_round (ev : json) : json :=
  por (por (safe_get ev "roundInfo.round") (safe_get ev "round.round")) (JInt 0).

(** [round_map.setdefault(int(r), []).append(ev)] on a dict kept in
    insertion order. *)
Fixpoint bucket_add (rid : Z) (ev : json) (round_map : list (Z * list json))
  : list (Z * list json) :=
  match round_map with
  | [] => [(rid, [ev])]
  | (rid', evs) :: rest =>
      if rid =? rid' then (rid', evs ++ [ev]) :: rest
      else (rid', evs) :: bucket_add rid ev rest
  end.

Definition bucket_event (round_map : list (Z * list json)) (ev : json)
  : result (list (Z * list json)) :=
  let* rid := py_int (event_round ev) in
  Ok (bucket_add rid ev round_map).

#[local] Instance bucket_le_dec (a b : Z * list json) : Decision (a.1 ≤ b.1) := _.

(** The pseudo-rounds built from the buckets, in increasing round id. *)
Definition pseudo_rounds (round_map : list (Z * list json)) : list json :=
  map (λ b : Z * list json,
         JObj [("id", JInt b.1);
               ("name", JStr ("Round " +:+ pretty b.1));
               ("events", JArr b.2)])
      (merge_sort (λ a b : Z * list json, a.1 ≤ b.1) round_map).

(** The body of the loop that fills in the events of a round [r]. *)
Definition fill_round (season_id : Z) (r : json) : io request json :=
  let! rid := io_lift (let* a := get r "id" in por_m a (get r "round")) in
  match r with
  | JObj fields =>
      let fields := set_field "id" rid fields in
      let! r_events := get_events_by_round TOURNAMENT_ID season_id rid in
      let! r_events :=
        if truthy r_events then io_ret r_events
        else
          let! all_events := get_events_by_season TOURNAMENT_ID season_id in
          let! all_events := io_lift (iter all_events) in
          io_ret (JArr (filter (λ ev, py_eq (event_round ev) rid = true) all_events)) in
      io_ret (JObj (set_field "events" r_events fields))
  | _ => io_lift (Raise AttributeError)
  end.

(** [collect_matches] from its first line to the end of the discovery of
    the rounds (the [if not rounds: ... else: ...] statement); the value is
    the list [rounds] at that point. The requested [season_year] is only
    logged: the season id is the literal of the assignment
    [season_id = 72034]. What follows in the source (the round filter, the
    per-event fetches, normalization and persistence) sends only the
    per-event requests [/event/{id}...], which carry no season id. *)
Definition collect_matches_rounds (season_year : Z) : io request (list json) :=
  let season_id := 72034 in
  if negb (truthy (JInt season_id)) then io_lift (Raise RuntimeError)
  else
    let! rounds := get_rounds TOURNAMENT_ID season_id in
    if negb (truthy rounds) then
      let! events := get_events_by_season TOURNAMENT_ID season_id in
      if negb (truthy events) then io_lift (Raise RuntimeError)
      else
        let! events := io_lift (iter events) in
        let! round_map := io_lift (fold_each bucket_event [] events) in
        io_ret (pseudo_rounds round_map)
    else
      let! rounds := io_lift (iter rounds) in
      io_fold (λ done r, let! r' := fill_round season_id r in io_ret (done ++ [r']))
        [] rounds.

End client.

(** *** Which requests a computation sends *)

Section sends.
Context {P : request → Prop}.

(** [sends_only m]: every request in the trace of [m] satisfies [P]. *)
Definition sends_only {A} (m : io request A) : Prop := Forall P m.1.

Lemma sends_only_ret {A} (a : A) : sends_only (io_ret a).
Proof. constructor. Qed.

Lemma sends_only_lift {A} (r : result A) : sends_only (io_lift r).
Proof. constructor. Qed.

Lemma sends_only_bind {A B} (m : io request A) (k : A → io request B) :
  sends_only m → (∀ a, sends_only (k a)) → sends_only (io_bind m k).
Proof.
  unfold sends_only, io_bind. intros Hm Hk.
  destruct m as [t [a|e]]; simpl in *; [|exact Hm].
  specialize (Hk a). destruct (k a) as [t2 r]. simpl in *.
  apply Forall_app. by split.
Qed.

Lemma sends_only_except {A} (body handler : io request A) :
  sends_only body → sends_only handler → sends_only (except_http body handler).
Proof.
  unfold sends_only, except_http. intros Hb Hh.
  destruct body as [t [a|e]]; simpl in *; [exact Hb|].
  destruct e; simpl; try exact Hb. apply Forall_app. by split.
Qed.

Lemma sends_only_fold {A B} (body : A → B → io request A) acc xs :
  (∀ a x, sends_only (body a x)) → sends_only (io_fold body acc xs).
Proof.
  intros Hbody. revert acc. induction xs as [|x xs IH]; intros acc; simpl.
  - apply sends_only_ret.
  - apply sends_only_bind; [apply Hbody|]. intros a. apply IH.
Qed.

Lemma sends_only_first_non_empty api k1 k2 paths :
  Forall P paths → sends_only (first_non_empty api k1 k2 paths).
Proof.
  induction 1 as [|p rest Hp _ IH]; simpl; [apply sends_only_ret|].
  apply sends_only_bind.
  - apply sends_only_except; [|apply sends_only_ret].
    apply sends_only_bind; [by repeat constructor|]. intros data.
    apply sends_only_bind; [apply sends_only_lift|]. intros found.
    apply sends_only_ret.
  - intros [found|]; [apply sends_only_ret|exact IH].
Qed.

End sends.

(** A request is about the hard-coded season when it is not the seasons
    listing and any season id it carries is 72034. *)
Definition about_season_72034 (req : request) : Prop :=
  is_seasons_request req = false ∧ ∀ s, season_of req = Some s → s = 72034.

Lemma collect_matches_rounds_season api season_year :
  sends_only (P := about_season_72034) (collect_matches_rounds api season_year).
Proof.
  assert (∀ paths, Forall about_season_72034 paths →
                   ∀ k1 k2, sends_only (P := about_season_72034)
                              (first_non_empty api k1 k2 paths)) as Hpaths.
  { intros paths Hp k1 k2. by apply sends_only_first_non_empty. }
  assert (∀ req, is_seasons_request req = false → season_of req = Some 72034 →
                 about_season_72034 req) as Hgood.
  { intros req Hs Hq. split; [exact Hs|]. intros s. rewrite Hq. congruence. }
  unfold collect_matches_rounds. simpl.
  apply sends_only_bind.
  { apply Hpaths. repeat constructor; by apply Hgood. }
  intros rounds. destruct (negb (truthy rounds)).
  - apply sends_only_bind.
    { apply Hpaths. repeat constructor; by apply Hgood. }
    intros events. destruct (negb (truthy events)); [apply sends_only_lift|].
    apply sends_only_bind; [apply sends_only_lift|]. intros evs.
    apply sends_only_bind; [apply sends_only_lift|]. intros round_map.
    apply sends_only_ret.
  - apply sends_only_bind; [apply sends_only_lift|]. intros rs.
    apply sends_only_fold. intros done r.
    apply sends_only_bind; [|intros; apply sends_only_ret].
    unfold fill_round.
    apply sends_only_bind; [apply sends_only_lift|]. intros rid.
    destruct r; try apply sends_only_lift.
    apply sends_only_bind.
    { apply Hpaths. repeat constructor; by apply Hgood. }
    intros r_events. apply sends_only_bind; [|intros; apply sends_only_ret].
    destruct (truthy r_events); [apply sends_only_ret|].
    apply sends_only_bind.
    { apply Hpaths. repeat constructor; by apply Hgood. }
    intros all_events. apply sends_only_bind; [apply sends_only_lift|].
    intros; apply sends_only_ret.
Qed.

(** An API with two seasons, 2024 with id 58766 and 2025 with id 72034,
    each with one round of one event; the event id tells the seasons
    apart. *)
Definition two_seasons_api (req : request) : result json :=
  match req with
  | Seasons _ =>
      Ok (JObj [("seasons",
                  JArr [JObj [("name", JStr "Brasileirao 2025"); ("year", JInt 2025);
                              ("id", JInt 72034)];
                        JObj [("name", JStr "2024"); ("id", JInt 58766)]])])
  | Rounds _ _ => Ok (JObj [("rounds", JArr [JObj [("round", JInt 1)]])])
  | RoundEvents _ s _ => Ok (JObj [("events", JArr [JObj [("id", JInt (s * 10 + 1))]])])
  | _ => Raise HTTPError
  end.

(** C2 on the code. [get_season_id_by_year] resolves 2024 and 2025 to
    different season ids (by the [name] field and by the [year] field), but
    [collect_matches] never calls it: for every API and every requested
    year it asks for the rounds and events of season 72034, and the run for
    2024 sends the same requests and finds the same rounds as the run for
    2025. *)
Theorem collect_matches_ignores_season_year :
  (get_season_id_by_year two_seasons_api TOURNAMENT_ID 2024).2 = Ok (JInt 58766)
  ∧ (get_season_id_by_year two_seasons_api TOURNAMENT_ID 2025).2 = Ok (JInt 72034)
  ∧ (collect_matches_rounds two_seasons_api 2024).1 =
      [Rounds 325 72034; RoundEvents 325 72034 (JInt 1)]
  ∧ collect_matches_rounds two_seasons_api 2024 = collect_matches_rounds two_seasons_api 2025
  ∧ ∀ api season_year,
      Forall about_season_72034 (collect_matches_rounds api season_year).1.
Proof.
  split; [vm_compute; reflexivity|].
  split; [vm_compute; reflexivity|].
  split; [vm_compute; reflexivity|].
  split; [reflexivity|].
  intros api season_year. apply collect_matches_rounds_season.
Qed.

(** *** Further properties of discovery *)

(** What one candidate path contributes to [first_non_empty]: a truthy
    collection, nothing (an [HTTPError] or an empty collection), or an
    exception that is not an [HTTPError]. *)
Definition attempt (api : request → result json) (k1 k2 : string) (p : request)
  : result (option json) :=
  match api p with
  | Ok data =>
      match (let* a := get data k1 in
             let* b := por_m a (get data k2) in
             Ok (por b (JArr []))) with
      | Ok found => Ok (if truthy found then Some found else None)
      | Raise e => Raise e
      end
  | Raise HTTPError => Ok None
  | Raise e => Raise e
  end.

Lemma first_non_empty_cons api k1 k2 p rest :
  first_non_empty api k1 k2 (p :: rest)
  = match attempt api k1 k2 p with
    | Ok (Some found) => ([p], Ok found)
    | Ok None => (p :: (first_non_empty api k1 k2 rest).1,
                  (first_non_empty api k1 k2 rest).2)
    | Raise e => ([p], Raise e)
    end.
Proof.
  cbn [first_non_empty]. unfold attempt, io_bind, except_http, _get, io_lift, io_ret.
  cbn [fst snd].
  destruct (api p) as [data|e]; cbn.
  - destruct data as [| | | | | |fields]; cbn; try reflexivity.
    unfold por_m. destruct (truthy (dict_get fields k1 JNull)); cbn;
      match goal with
      | |- context [truthy (por ?b (JArr []))] => destruct (truthy (por b (JArr [])))
      end; cbn; try reflexivity; by destruct (first_non_empty api k1 k2 rest).
  - destruct e; cbn; try reflexivity. by destruct (first_non_empty api k1 k2 rest).
Qed.

Lemma attempt_not_http api k1 k2 p : attempt api k1 k2 p ≠ Raise HTTPError.
Proof.
  unfold attempt. destruct (api p) as [data|e]; [|by destruct e].
  destruct data as [| | | | | |fields]; cbn; try done.
  unfold por_m. destruct (truthy (dict_get fields k1 JNull)); cbn; done.
Qed.

(** [data.get(k1) or data.get(k2)] on the answer [data] of a request. *)
Definition collection (k1 k2 : string) (fields : list (string * json)) : json :=
  por (dict_get fields k1 JNull) (dict_get fields k2 JNull).

(** The answer [data] to a request holds the truthy collection [v]. *)
Definition collection_of (k1 k2 : string) (data v : json) : Prop :=
  ∃ fields, data = JObj fields ∧ v = collection k1 k2 fields ∧ truthy v = true.

(** The request [p] gave nothing: it failed with an [HTTPError], or its
    answer is a dict whose collection is falsy. *)
Definition gave_nothing (api : request → result json) (k1 k2 : string) (p : request)
  : Prop :=
  api p = Raise HTTPError
  ∨ ∃ fields, api p = Ok (JObj fields) ∧ truthy (collection k1 k2 fields) = false.

(** The request [p] broke the call with [e]: the exception of the request
    itself, other than an [HTTPError], or the [AttributeError] of [data.get]
    on an answer that is not a dict. *)
Definition broke_with (api : request → result json) (p : request) (e : exn) : Prop :=
  e ≠ HTTPError
  ∧ (api p = Raise e
     ∨ (e = AttributeError ∧ ∃ data, api p = Ok data ∧ ∀ fields, data ≠ JObj fields)).

Lemma attempt_dict api k1 k2 p fields :
  api p = Ok (JObj fields) →
  attempt api k1 k2 p
  = Ok (if truthy (collection k1 k2 fields) then Some (collection k1 k2 fields) else None).
Proof.
  unfold attempt, collection. intros ->. cbn. unfold por_m, por.
  destruct (truthy (dict_get fields k1 JNull)) eqn:Ha; cbn; rewrite ?Ha; cbn;
    rewrite ?Ha; [done|].
  destruct (truthy (dict_get fields k2 JNull)) eqn:Hb; cbn; rewrite ?Hb; cbn;
    by rewrite ?Hb.
Qed.

Lemma attempt_some api k1 k2 p found :
  attempt api k1 k2 p = Ok (Some found) →
  ∃ data, api p = Ok data ∧ collection_of k1 k2 data found.
Proof.
  intros H. destruct (api p) as [data|e] eqn:Eapi.
  - destruct data as [| | | | | |fields];
      try (unfold attempt in H; rewrite Eapi in H; discriminate H).
    rewrite (attempt_dict _ _ _ _ _ Eapi) in H.
    destruct (truthy (collection k1 k2 fields)) eqn:Ht; [|discriminate H].
    injection H as <-. exists (JObj fields). split; [done|]. by exists fields.
  - unfold attempt in H. rewrite Eapi in H. by destruct e.
Qed.

Lemma attempt_none api k1 k2 p :
  attempt api k1 k2 p = Ok None → gave_nothing api k1 k2 p.
Proof.
  intros H. destruct (api p) as [data|e] eqn:Eapi.
  - destruct data as [| | | | | |fields];
      try (unfold attempt in H; rewrite Eapi in H; discriminate H).
    rewrite (attempt_dict _ _ _ _ _ Eapi) in H.
    destruct (truthy (collection k1 k2 fields)) eqn:Ht; [discriminate H|].
    right. by exists fields.
  - unfold attempt in H. rewrite Eapi in H. left. by destruct e.
Qed.

Lemma attempt_raise api k1 k2 p e :
  attempt api k1 k2 p = Raise e → broke_with api p e.
Proof.
  intros H. split.
  { intros ->. by apply (attempt_not_http api k1 k2 p). }
  destruct (api p) as [data|e'] eqn:Eapi.
  - destruct data as [| | | | | |fields];
      try (unfold attempt in H; rewrite Eapi in H; cbn in H; injection H as <-;
           right; split; [done|]; eexists; split; [done|]; done).
    rewrite (attempt_dict _ _ _ _ _ Eapi) in H. discriminate H.
  - unfold attempt in H. rewrite Eapi in H. left. destruct e'; congruence.
Qed.

(** How a discovery call over the candidate [paths] with the keys [k1] and
    [k2] can end. The requests sent are a beginning [tried ++ [p]] of
    [paths], each request of [tried] having given nothing. A value that the
    call returns is either the truthy collection in the answer to the last
    request [p], or the empty list when [p] gave nothing either and every
    path was tried. An exception that it raises is never an [HTTPError]:
    it is the one with which [p] broke the call. *)
Definition fallback_result (api : request → result json) (k1 k2 : string)
    (paths : list request) (r : io request json) : Prop :=
  ∃ tried p,
    r.1 = tried ++ [p]
    ∧ r.1 `prefix_of` paths
    ∧ Forall (gave_nothing api k1 k2) tried
    ∧ r.2 ≠ Raise HTTPError
    ∧ (∀ v, r.2 = Ok v →
         (∃ data, api p = Ok data ∧ collection_of k1 k2 data v)
         ∨ (v = JArr [] ∧ r.1 = paths ∧ gave_nothing api k1 k2 p))
    ∧ (∀ e, r.2 = Raise e → broke_with api p e).

Lemma first_non_empty_fallback api k1 k2 p rest :
  fallback_result api k1 k2 (p :: rest) (first_non_empty api k1 k2 (p :: rest)).
Proof.
  revert p. induction rest as [|q rest IH]; intros p; rewrite first_non_empty_cons;
    pose proof (attempt_some api k1 k2 p) as Hsome;
    pose proof (attempt_none api k1 k2 p) as Hnone;
    pose proof (attempt_raise api k1 k2 p) as Hraise;
    destruct (attempt api k1 k2 p) as [[found|]|e]; unfold fallback_result; cbn [fst snd].
  - exists [], p. split; [done|]. split; [by exists []|]. split; [constructor|].
    split; [done|]. split; [|done]. intros v [= <-]. left. by apply Hsome.
  - exists [], p. split; [done|]. split; [done|]. split; [constructor|].
    split; [done|]. split; [|done]. intros v [= <-]. right. auto.
  - exists [], p. split; [done|]. split; [by exists []|]. split; [constructor|].
    destruct (Hraise e eq_refl) as [Hne Hwhy].
    split; [congruence|]. split; [done|]. intros e' [= <-]. by split.
  - exists [], p. split; [done|]. split; [by exists (q :: rest)|]. split; [constructor|].
    split; [done|]. split; [|done]. intros v [= <-]. left. by apply Hsome.
  - destruct (IH q) as (tried & last & Esent & Hpre & Hnothing & Hhttp & Hval & Hexn).
    exists (p :: tried), last. rewrite Esent in *.
    split; [done|]. split; [by apply prefix_cons|].
    split; [constructor; auto|]. split; [done|]. split; [|done].
    intros v Hv. destruct (Hval v Hv) as [?|(-> & <- & ?)]; [by left|by right].
  - exists [], p. split; [done|]. split; [by exists (q :: rest)|]. split; [constructor|].
    destruct (Hraise e eq_refl) as [Hne Hwhy].
    split; [congruence|]. split; [done|]. intros e' [= <-]. by split.
Qed.

(** The three listing methods of the client try their two endpoint shapes
    in order and stop at the first truthy collection, which they return as
    the answer holds it ([rounds] or else [data]; [events] or else
    [matches]); a shape that fails with an [HTTPError] or holds no
    collection is skipped; the empty list is returned only after both
    shapes gave nothing; and the methods never raise an [HTTPError]
    themselves. *)
Theorem discovery_fallback (api : request → result json) (t s : Z) (rid : json) :
  fallback_result api "rounds" "data" [Rounds t s; EventsRounds t s] (get_rounds api t s)
  ∧ fallback_result api "events" "matches" [SeasonEvents t s; SeasonMatches t s]
      (get_events_by_season api t s)
  ∧ fallback_result api "events" "matches" [RoundEvents t s rid; EventsRound t s rid]
      (get_events_by_round api t s rid).
Proof. repeat split; apply first_non_empty_fallback. Qed.





(** *** The client-side bucketing of events into rounds *)

Definition round_id (r : json) : json := safe_get r "id".

Definition round_events (r : json) : list json :=
  match safe_get r "events" with
  | JArr events => events
  | _ => []
  end.

(** What the buckets keep while events are added: the round ids are
    distinct and every event sits in the bucket of its own round number. *)
Definition bucketed (round_map : list (Z * list json)) : Prop :=
  NoDup (map fst round_map)
  ∧ Forall (λ b : Z * list json,
              Forall (λ ev, py_int (event_round ev) = Ok b.1) b.2) round_map.

Lemma bucket_add_events rid ev (round_map : list (Z * list json)) :
  (bucket_add rid ev round_map ≫= snd) ≡ₚ ev :: (round_map ≫= snd).
Proof.
  induction round_map as [|[rid' evs] rest IH]; cbn; [done|].
  destruct (rid =? rid'); cbn.
  - rewrite <- app_assoc. cbn. by rewrite <- Permutation_middle.
  - rewrite IH. by rewrite Permutation_middle.
Qed.

Lemma bucket_add_keys rid ev (round_map : list (Z * list json)) :
  map fst (bucket_add rid ev round_map)
  = if bool_decide (rid ∈ map fst round_map) then map fst round_map
    else map fst round_map ++ [rid].
Proof.
  induction round_map as [|[rid' evs] rest IH]; cbn; [done|].
  destruct (Z.eqb_spec rid rid') as [->|Hne]; cbn.
  - rewrite bool_decide_eq_true_2; [done|left].
  - rewrite IH. destruct (bool_decide (rid ∈ map fst rest)) eqn:Hin.
    + apply bool_decide_eq_true in Hin. rewrite bool_decide_eq_true_2; [done|by right].
    + apply bool_decide_eq_false in Hin. rewrite bool_decide_eq_false_2; [done|].
      intros [?|?]%elem_of_cons; done.
Qed.

Lemma bucket_add_bucketed rid ev round_map :
  py_int (event_round ev) = Ok rid → bucketed round_map →
  bucketed (bucket_add rid ev round_map).
Proof.
  intros Hrid [Hnd Hin]. split.
  - rewrite bucket_add_keys. destruct (bool_decide _) eqn:Hk; [done|].
    apply bool_decide_eq_false in Hk. apply NoDup_app. split; [done|].
    split; [|apply NoDup_singleton]. intros k Hk1 Hk2%list_elem_of_singleton. by subst.
  - clear Hnd. induction Hin as [|[rid' evs] rest Hb Hrest IH]; cbn.
    + by repeat constructor.
    + destruct (Z.eqb_spec rid rid') as [->|Hne]; constructor; try done.
      cbn in *. apply Forall_app. split; [done|]. by constructor.
Qed.

Lemma bucket_events_fold events : ∀ acc round_map,
  bucketed acc →
  fold_each bucket_event acc events = Ok round_map →
  bucketed round_map ∧ (round_map ≫= snd) ≡ₚ (acc ≫= snd) ++ events.
Proof.
  induction events as [|ev events IH]; cbn; intros acc round_map Hacc H.
  - injection H as <-. by rewrite app_nil_r.
  - apply bind_ok in H as (acc' & Hstep & H).
    unfold bucket_event in Hstep. apply bind_ok in Hstep as (rid & Hrid & Hstep).
    injection Hstep as <-.
    destruct (IH _ _ (bucket_add_bucketed _ _ _ Hrid Hacc) H) as [Hb Hperm].
    split; [done|]. rewrite Hperm, bucket_add_events. cbn. apply Permutation_middle.
Qed.

#[local] Instance bucket_le_total : Total (λ a b : Z * list json, a.1 ≤ b.1).
Proof. intros a b. lia. Qed.

(** When the rounds endpoints give nothing, the events of the season are
    grouped by their round number: the pseudo-rounds come in increasing
    order of distinct ids, every event is in the round of its own number,
    and together the rounds hold exactly the events that were listed, none
    lost and none twice. *)
Theorem bucket_fallback_partition (events : list json) (round_map : list (Z * list json)) :
  fold_each bucket_event [] events = Ok round_map →
  let rounds := pseudo_rounds round_map in
  (rounds ≫= round_events) ≡ₚ events
  ∧ (∃ ids, map round_id rounds = map JInt ids ∧ Sorted Z.le ids ∧ NoDup ids)
  ∧ Forall (λ r, ∃ rid, round_id r = JInt rid
                        ∧ Forall (λ ev, py_int (event_round ev) = Ok rid) (round_events r))
      rounds.
Proof.
  intros H. cbn zeta.
  destruct (bucket_events_fold events [] round_map) as [[Hnd Hin] Hperm]; [|done|].
  { split; constructor. }
  unfold pseudo_rounds. set (sorted := merge_sort _ round_map).
  assert (sorted ≡ₚ round_map) as Hsorted by apply merge_sort_Permutation.
  set (mk := λ b : Z * list json,
               JObj [("id", JInt b.1); ("name", JStr ("Round " +:+ pretty b.1));
                     ("events", JArr b.2)]).
  assert (∀ l : list (Z * list json), (map mk l ≫= round_events) = (l ≫= snd)) as Hev.
  { induction l as [|b l IH]; cbn; [done|]. by rewrite IH. }
  split; [|split].
  - rewrite Hev, Hsorted. exact Hperm.
  - exists (map fst sorted). split; [|split].
    + rewrite !map_map. reflexivity.
    + apply (Sorted_fmap _ (λ a b : Z * list json, a.1 ≤ b.1)); [done|].
      apply Sorted_merge_sort. apply _.
    + by rewrite Hsorted.
  - rewrite <- Hsorted in Hin. clear -Hin. induction Hin as [|b l Hb _ IH]; cbn; constructor.
    + by exists b.1.
    + exact IH.
Qed.

(** Three listed events, of rounds 2, 1 and 2. *)
Definition listed_events : list json :=
  [JObj [("id", JInt 10); ("roundInfo", JObj [("round", JInt 2)])];
   JObj [("id", JInt 11); ("roundInfo", JObj [("round", JInt 1)])];
   JObj [("id", JInt 12); ("round", JObj [("round", JInt 2)])]].

Lemma bucket_fallback_partition_witness :
  ∃ round_map,
    fold_each bucket_event [] listed_events = Ok round_map
    ∧ map round_id (pseudo_rounds round_map) = [JInt 1; JInt 2]
    ∧ (pseudo_rounds round_map ≫= round_events) ≡ₚ listed_events.
Proof.
  eexists. split; [vm_compute; reflexivity|]. split; [vm_compute; reflexivity|].
  match goal with
  | |- (pseudo_rounds ?m ≫= _) ≡ₚ _ =>
      apply (bucket_fallback_partition listed_events m)
  end.
  vm_compute. reflexivity.
Defined.

(** *** Season resolution and the shape of the discovered rounds *)

Definition is_dict (v : json) : bool :=
  match v with JObj _ => true | _ => false end.

Definition year_matches (year : Z) (s : json) : bool :=
  py_eq (safe_get s "year") (JInt year).

Definition name_matches (year : Z) (s : json) : bool :=
  str_eq_int (safe_get s "name") year.

Lemma season_by_year_find seasons year :
  Forall (λ s, is_dict s = true) seasons →
  season_by_year seasons year
  = Ok ((λ s, safe_get s "id") <$> find (year_matches year) seasons).
Proof.
  induction 1 as [|s rest Hs _ IH]; cbn [season_by_year find]; [done|].
  destruct s as [| | | | | |fields]; try discriminate Hs.
  unfold get, get_d. cbn [bind].
  change (year_matches year (JObj fields))
    with (py_eq (dict_get fields "year" JNull) (JInt year)).
  destruct (py_eq (dict_get fields "year" JNull) (JInt year)); [reflexivity|exact IH].
Qed.

Lemma season_by_name_find seasons year :
  Forall (λ s, is_dict s = true) seasons →
  season_by_name seasons year
  = Ok ((λ s, safe_get s "id") <$> find (name_matches year) seasons).
Proof.
  induction 1 as [|s rest Hs _ IH]; cbn [season_by_name find]; [done|].
  destruct s as [| | | | | |fields]; try discriminate Hs.
  unfold get, get_d. cbn [bind].
  change (name_matches year (JObj fields))
    with (str_eq_int (dict_get fields "name" JNull) year).
  destruct (str_eq_int (dict_get fields "name" JNull) year); [reflexivity|exact IH].
Qed.

(** For a seasons listing whose entries are dicts, the resolver sends the
    one listing request and gives the id of the first season whose [year]
    equals the requested year, wherever it stands in the list; only when
    no season matches on [year], the id of the first season whose [name]
    prints like the year; and [None] when there is neither. *)
Theorem get_season_id_by_year_resolution (api : request → result json)
    (tournament_id year : Z) (data : json) (seasons : list json) :
  api (Seasons tournament_id) = Ok data →
  get_d data "seasons" (JArr []) = Ok (JArr seasons) →
  Forall (λ s, is_dict s = true) seasons →
  get_season_id_by_year api tournament_id year
  = ([Seasons tournament_id],
     Ok (match find (year_matches year) seasons with
         | Some s => safe_get s "id"
         | None =>
             match find (name_matches year) seasons with
             | Some s => safe_get s "id"
             | None => JNull
             end
         end)).
Proof.
  intros Hapi Hdata Hdicts.
  unfold get_season_id_by_year, get_seasons, _get, io_bind, io_lift, io_ret.
  rewrite Hapi, Hdata. cbn [fst snd iter].
  rewrite season_by_year_find by done.
  destruct (find (year_matches year) seasons); cbn; [done|].
  rewrite season_by_name_find by done.
  by destruct (find (name_matches year) seasons).
Qed.

(** The seasons that [two_seasons_api] lists. *)
Definition two_seasons : list json :=
  [JObj [("name", JStr "Brasileirao 2025"); ("year", JInt 2025); ("id", JInt 72034)];
   JObj [("name", JStr "2024"); ("id", JInt 58766)]].

Lemma get_season_id_by_year_resolution_witness :
  get_season_id_by_year two_seasons_api TOURNAMENT_ID 2024
  = ([Seasons TOURNAMENT_ID], Ok (JInt 58766)).
Proof.
  rewrite (get_season_id_by_year_resolution two_seasons_api TOURNAMENT_ID 2024
             (JObj [("seasons", JArr two_seasons)]) two_seasons);
    [vm_compute; reflexivity | reflexivity | reflexivity | repeat constructor].
Defined.

Lemma lookup_field_set_same k v (fields : list (string * json)) :
  lookup_field k (set_field k v fields) = Some v.
Proof.
  induction fields as [|[k' v'] rest IH]; cbn.
  - by rewrite String.eqb_refl.
  - destruct (String.eqb_spec k k') as [->|Hne]; cbn.
    + by rewrite String.eqb_refl.
    + destruct (String.eqb_spec k k'); [done|exact IH].
Qed.

Lemma lookup_field_set_some k k' v (fields : list (string * json)) :
  is_Some (lookup_field k fields) → is_Some (lookup_field k (set_field k' v fields)).
Proof.
  induction fields as [|[k2 v2] rest IH]; cbn; [by intros [? ?]|].
  destruct (String.eqb_spec k' k2) as [->|Hne]; cbn;
    destruct (String.eqb_spec k k2); eauto.
Qed.

(** A round as the rest of [collect_matches] reads it: a dict with an
    ["id"] and an ["events"] entry. *)
Definition round_shaped (r : json) : Prop :=
  ∃ fields, r = JObj fields
            ∧ is_Some (lookup_field "id" fields)
            ∧ is_Some (lookup_field "events" fields).

Lemma io_fold_invariant {E A B} (P : A → Prop) (body : A → B → io E A) xs :
  (∀ a x t a', P a → body a x = (t, Ok a') → P a') →
  ∀ acc t r, P acc → io_fold body acc xs = (t, Ok r) → P r.
Proof.
  intros Hbody. induction xs as [|x xs IH]; cbn; intros acc t r Hacc H.
  - by injection H as _ <-.
  - apply io_bind_ok in H as (t1 & a & t2 & Hstep & Hrest & _).
    eapply IH; [|exact Hrest]. eauto.
Qed.

Lemma fill_round_shaped api season_id r t r' :
  fill_round api season_id r = (t, Ok r') → round_shaped r'.
Proof.
  unfold fill_round. intros H.
  apply io_bind_ok in H as (? & rid & ? & _ & H & _).
  destruct r as [| | | | | |fields]; try discriminate H.
  apply io_bind_ok in H as (? & r_events & ? & _ & H & _).
  apply io_bind_ok in H as (? & evs & ? & _ & H & _).
  injection H as _ <-. eexists. split; [reflexivity|]. split.
  - apply lookup_field_set_some. rewrite lookup_field_set_same. eauto.
  - rewrite lookup_field_set_same. eauto.
Qed.

(** Whichever way the rounds are discovered, from the rounds endpoints or
    by bucketing the events of the season, every round that
    [collect_matches] goes on to process is a dict that has an ["id"] and
    an ["events"] entry. *)
Theorem collect_matches_rounds_shaped (api : request → result json) (season_year : Z)
    (t : list request) (rounds : list json) :
  collect_matches_rounds api season_year = (t, Ok rounds) →
  Forall round_shaped rounds.
Proof.
  unfold collect_matches_rounds. cbn [truthy negb Z.eqb]. intros H.
  apply io_bind_ok in H as (? & found & ? & _ & H & _).
  destruct (negb (truthy found)).
  - apply io_bind_ok in H as (? & events & ? & _ & H & _).
    destruct (negb (truthy events)); [discriminate H|].
    apply io_bind_ok in H as (? & evs & ? & _ & H & _).
    apply io_bind_ok in H as (? & round_map & ? & _ & H & _).
    injection H as _ <-. unfold pseudo_rounds.
    apply Forall_fmap, Forall_forall. intros b _. eexists. split; [reflexivity|].
    cbn. eauto.
  - apply io_bind_ok in H as (? & rs & ? & _ & H & _).
    eapply (io_fold_invariant (Forall round_shaped)); [|constructor|exact H].
    intros done r t' done' Hdone Hstep.
    apply io_bind_ok in Hstep as (? & r' & ? & Hfill & Hret & _).
    injection Hret as _ <-. apply Forall_app. split; [done|].
    constructor; [|constructor]. by eapply fill_round_shaped.
Qed.

Lemma collect_matches_rounds_shaped_witness :
  ∃ t rounds,
    collect_matches_rounds two_seasons_api 2025 = (t, Ok rounds)
    ∧ length rounds = 1%nat
    ∧ Forall round_shaped rounds.
Proof.
  do 2 eexists. split; [vm_compute; reflexivity|]. split; [reflexivity|].
  eapply (collect_matches_rounds_shaped two_seasons_api 2025). vm_compute. reflexivity.
Defined.

End Collector.

(* ===================================================================== *)
(** ** Chunk builder ([embedder.py])                                       *)
(* ===================================================================== *)

Module Embedder.

(** A call [vector_store.add_document(text=..., metadata=...)]. The method
    catches every exception itself, so the call returns to the chunk
    builder whatever happens in the store. *)
Record add_call : Type := AddDocument { call_text : string; call_metadata : json }.

(** How the processing of one decoded file ends when no exception escapes:
    the players counted, or the early [continue] for a falsy [raw]. *)
Inductive outcome : Type :=
| Processed (players_processed_count : nat)
| NoRaw.

Definition is_none (v : json) : bool :=
  match v with JNull => true | _ => false end.

Section embedder.

(** Python library functions on which no property here depends: [str()]
    of a decoded value (used by the f-string and by [str(eventId)]),
    [os.path.basename], and [json.dumps(..., indent=2, ensure_ascii=False)]. *)
Variable str : json → string.
Variable basename : string → string.
Variable dumps : json → string.

(** [os.path.basename(v)] needs a path. *)
Definition basename_of (v : json) : result json :=
  match v with
  | JStr path => Ok (JStr (basename path))
  | _ => Raise TypeError
  end.

(** [SofaScoreEmbedder._create_player_chunk]; [match_context] is the
    dict built by the caller. *)
Definition _create_player_chunk (player_data : json) (match_context : list (string * json))
  : result (json * json) :=
  let ctx k := dict_get match_context k JNull in
  let* player_info := get_d player_data "player" (JObj []) in
  let* player_stats := get_d player_data "statistics" (JObj []) in
  let* player_id := get player_info "id" in
  let* player_name := get player_info "name" in
  let* position := get player_data "position" in
  let* jersey := get player_data "jerseyNumber" in
  let* substitute := get_d player_data "substitute" (JBool false) in
  let chunk_content :=
    JObj [("matchInfo",
            JObj [("eventId", ctx "eventId");
                  ("matchDate", ctx "matchDate");
                  ("season", ctx "season");
                  ("round", ctx "round");
                  ("homeTeam", ctx "homeTeamName");
                  ("awayTeam", ctx "awayTeamName");
                  ("finalScore",
                    JStr (str (ctx "homeScore") +:+ " x " +:+ str (ctx "awayScore")))]);
          ("playerPerformance",
            JObj [("playerId", player_id);
                  ("playerName", player_name);
                  ("playerTeam", ctx "playerTeamName");
                  ("position", position);
                  ("jerseyNumber", jersey);
                  ("isSubstitute", substitute);
                  ("statistics", player_stats)])] in
  let* source := basename_of (ctx "sourceFile") in
  let metadata :=
    [("eventId", ctx "eventId");
     ("playerId", player_id);
     ("playerName", player_name);
     ("teamId", ctx "playerTeamId");
     ("teamName", ctx "playerTeamName");
     ("season", ctx "season");
     ("round", ctx "round");
     ("sourceFile", source);
     ("parent_id", JStr (str (ctx "eventId")))] in
  Ok (chunk_content, JObj (filter (λ kv, is_none kv.2 = false) metadata)).

(** The body of the loop over the players of one side. *)
Definition embed_player (team_info : json) (base_context : list (string * json))
    (count : nat) (player_data : json) : io add_call nat :=
  let! stats := io_lift (get player_data "statistics") in
  if negb (truthy stats) then io_ret count
  else
    let! team_name := io_lift (get team_info "name") in
    let! team_id := io_lift (get team_info "id") in
    let player_context :=
      set_field "playerTeamId" team_id (set_field "playerTeamName" team_name base_context) in
    let! chunk := io_lift (_create_player_chunk player_data player_context) in
    let! _ := io_emit (AddDocument (dumps chunk.1) chunk.2) in
    io_ret (S count).

(** The body of the loop over [teams_to_process]. *)
Definition embed_team (lineups_data : json) (base_context : list (string * json))
    (count : nat) (team : string * json) : io add_call nat :=
  let! side := io_lift (get_d lineups_data team.1 (JObj [])) in
  let! players := io_lift (get_d side "players" (JArr [])) in
  if negb (truthy players) then io_ret count
  else
    let! players := io_lift (iter players) in
    io_fold (embed_player team.2 base_context) count players.

(** The body of the [try] of [process_and_embed_directory] for one file,
    after [json.load] has decoded it into [match_data]. *)
Definition process_file (file_path : string) (match_data : json) : io add_call outcome :=
  let! raw_data := io_lift (get_d match_data "raw" (JObj [])) in
  if negb (truthy raw_data) then io_ret NoRaw
  else
    let! core_data := io_lift (get_d raw_data "core" (JObj [])) in
    let! lineups_data := io_lift (get_d raw_data "lineups" (JObj [])) in
    let! season_info := io_lift (get_d core_data "season" (JObj [])) in
    let! home_team_info := io_lift (get_d core_data "homeTeam" (JObj [])) in
    let! away_team_info := io_lift (get_d core_data "awayTeam" (JObj [])) in
    let! home_score_info := io_lift (get_d core_data "homeScore" (JObj [])) in
    let! away_score_info := io_lift (get_d core_data "awayScore" (JObj [])) in
    let! event_id := io_lift (get core_data "id") in
    let! match_date := io_lift (get core_data "startTimestamp") in
    let! season := io_lift (get season_info "year") in
    let! round_info := io_lift (get_d core_data "roundInfo" (JObj [])) in
    let! round := io_lift (get round_info "round") in
    let! home_name := io_lift (get home_team_info "name") in
    let! away_name := io_lift (get away_team_info "name") in
    let! home_score := io_lift (get home_score_info "current") in
    let! away_score := io_lift (get away_score_info "current") in
    let base_context :=
      [("eventId", event_id);
       ("matchDate", match_date);
       ("season", season);
       ("round", round);
       ("homeTeamName", home_name);
       ("awayTeamName", away_name);
       ("homeScore", home_score);
       ("awayScore", away_score);
       ("sourceFile", JStr file_path)] in
    let teams_to_process := [("home", home_team_info); ("away", away_team_info)] in
    let! count := io_fold (embed_team lineups_data base_context) 0%nat teams_to_process in
    io_ret (Processed count).

(** The loop of [process_and_embed_directory] over the files found by
    [glob]: each file is its path and its decoded content, [None] when
    [json.load] fails. An exception inside the [try] is caught and reported
    for that file; the calls already made stay made. The value is every
    [add_document] call of the run, in order, and the report per file. *)
Definition process_and_embed_directory (files : list (string * option json))
  : list add_call * list (string * result outcome) :=
  foldl (λ acc file,
           match file.2 with
           | Some match_data =>
               let run := process_file file.1 match_data in
               (acc.1 ++ run.1, acc.2 ++ [(file.1, run.2)])
           | None => (acc.1, acc.2 ++ [(file.1, Raise ValueError)])
           end)
        ([], []) files.

End embedder.

(** *** The players of a persisted match *)

(** The lineup entries of one side in a match file:
    [raw.lineups.<side>.players]. *)
Definition side_players (match_data : json) (side : string) : list json :=
  match iter (Scraper.safe_get_parts match_data ["raw"; "lineups"; side; "players"] JNull) with
  | Ok players => players
  | Raise _ => []
  end.

(** The [P] players of the file, home then away (substitutes are entries
    of the same lists), and the [S] of them with a truthy [statistics]. *)
Definition lineup_players (match_data : json) : list json :=
  side_players match_data "home" ++ side_players match_data "away".




(** *** Counting the chunks (C7) *)


Lemma lookup_field_not_key k (fields : list (string * json)) :
  k ∉ fields.*1 → lookup_field k fields = None.
Proof.
  induction fields as [|[k' v] rest IH]; simpl; [done|].
  rewrite not_elem_of_cons. intros [Hne Hrest].
  destruct (String.eqb_spec k k'); [done|]. by apply IH.
Qed.

Lemma dict_get_drop_none k (fields : list (string * json)) :
  NoDup fields.*1 →
  dict_get (filter (λ kv, is_none kv.2 = false) fields) k JNull = dict_get fields k JNull.
Proof.
  unfold dict_get. induction fields as [|[k' v] rest IH]; simpl; [done|].
  intros [Hk Hnd]%NoDup_cons. rewrite filter_cons. simpl.
  destruct (decide (is_none v = false)) as [Hv|Hv]; simpl.
  - destruct (String.eqb k k'); [done|]. by apply IH.
  - destruct (String.eqb_spec k k') as [->|Hne]; [|by apply IH].
    rewrite lookup_field_not_key.
    + destruct v; simpl in Hv; done.
    + intros Hin. apply Hk. apply list_elem_of_fmap in Hin as ([k2 v2] & -> & Hin).
      apply list_elem_of_filter in Hin as [_ Hin].
      apply list_elem_of_fmap. by exists (k2, v2).
Qed.

Section count.
Variable str : json → string.
Variable basename : string → string.
Variable dumps : json → string.




Lemma safe_get_parts_dict_get fields k k2 rest :
  Scraper.safe_get_parts (JObj fields) (k :: k2 :: rest) JNull
  = Scraper.safe_get_parts (dict_get fields k (JObj [])) (k2 :: rest) JNull.
Proof. unfold dict_get. simpl. by destruct (lookup_field k fields). Qed.





(** A falsy [raw] means no player at all and no call. *)
Lemma process_file_no_raw file_path match_data calls :
  process_file str basename dumps file_path match_data = (calls, Ok NoRaw) →
  calls = [] ∧ lineup_players match_data = [].
Proof.
  unfold process_file. intros H.
  apply io_bind_ok in H as (? & raw_data & ? & Hr%io_lift_ok & H & ->).
  destruct Hr as [-> Hr].
  destruct match_data as [| | | | | |mf]; try discriminate Hr.
  simpl in Hr. injection Hr as <-.
  destruct (truthy (dict_get mf "raw" (JObj []))) eqn:Hraw; simpl in H.
  - repeat (apply io_bind_ok in H as (? & ? & ? & _ & H & ->)). discriminate H.
  - injection H as <-. split; [done|].
    unfold lineup_players, side_players. rewrite !safe_get_parts_dict_get.
    destruct (dict_get mf "raw" (JObj [])) as [| | | | | |[|kv rf]]; done.
Qed.

End count.

(** *** Files that the chunk builder processes to the end *)










Section completion.
Variable str : json → string.
Variable basename : string → string.
Variable dumps : json → string.













End completion.

(** *** The chunks of a run that an exception cuts short *)





Section emitted.
Variable str : json → string.
Variable basename : string → string.
Variable dumps : json → string.





End emitted.


(** Stand-ins for the library functions, for evaluating the scenario. *)
Definition plain_str (v : json) : string :=
  match v with
  | JStr s => s
  | JInt z => pretty z
  | JNull => "None"
  | _ => "?"
  end.





(** *** Further properties of the chunk builder *)

Definition metadata_keys : list string :=
  ["eventId"; "playerId"; "playerName"; "teamId"; "teamName"; "season"; "round";
   "sourceFile"; "parent_id"].

(** The metadata of a chunk is a dict without any [null] value, whose keys
    are, in order, among the nine metadata keys; it always has the
    [parent_id], the [str] of the event id, and the [sourceFile], the base
    name of the path of the file. *)
Theorem create_player_chunk_metadata (str : json → string) (basename : string → string)
    (player_data : json) (match_context : list (string * json)) (content meta : json) :
  _create_player_chunk str basename player_data match_context = Ok (content, meta) →
  ∃ fields,
    meta = JObj fields
    ∧ Forall (λ kv : string * json, kv.2 ≠ JNull) fields
    ∧ map fst fields `sublist_of` metadata_keys
    ∧ lookup_field "parent_id" fields
      = Some (JStr (str (dict_get match_context "eventId" JNull)))
    ∧ ∃ path, dict_get match_context "sourceFile" JNull = JStr path
              ∧ lookup_field "sourceFile" fields = Some (JStr (basename path)).
Proof.
  unfold _create_player_chunk. intros H. bind_inv H. injection H as _ <-.
  eexists. split; [reflexivity|].
  match goal with
  | |- Forall _ (filter ?P ?l) ∧ _ => set (all := l)
  end.
  assert (NoDup all.*1) as Hnd by (apply (bool_decide_unpack _); by vm_compute).
  assert (∀ key val, val ≠ JNull → dict_get all key JNull = val →
                     lookup_field key (filter (λ kv, is_none kv.2 = false) all) = Some val)
    as Hkept.
  { intros key val Hval Hkey. rewrite <- (dict_get_drop_none key all Hnd) in Hkey.
    unfold dict_get in Hkey. destruct (lookup_field key _); cbn in Hkey; congruence. }
  split; [|split; [|split]].
  - apply Forall_forall. intros [key val] [Hval _]%list_elem_of_filter. cbn in *.
    intros ->. discriminate Hval.
  - etrans; [apply (fmap_sublist fst), sublist_filter|]. reflexivity.
  - by apply Hkept.
  - match goal with
    | Hb : basename_of _ _ = Ok _ |- _ => rename Hb into Hbase
    end.
    unfold basename_of in Hbase.
    destruct (dict_get match_context "sourceFile" JNull) as [| | | |path| |];
      try discriminate Hbase.
    injection Hbase as <-. exists path. split; [done|]. by apply Hkept.
Qed.

Lemma create_player_chunk_metadata_witness :
  ∃ content fields,
    _create_player_chunk plain_str id
      (JObj [("player", JObj [("name", JStr "Scorer")]); ("statistics", JObj [("goals", JInt 1)])])
      [("eventId", JInt 99); ("sourceFile", JStr "99.json")]
    = Ok (content, JObj fields)
    ∧ map fst fields = ["eventId"; "playerName"; "sourceFile"; "parent_id"]
    ∧ Forall (λ kv : string * json, kv.2 ≠ JNull) fields.
Proof.
  do 2 eexists. split; [vm_compute; reflexivity|]. split; [reflexivity|].
  match goal with
  | |- Forall _ ?fs =>
      destruct (create_player_chunk_metadata plain_str id
                  (JObj [("player", JObj [("name", JStr "Scorer")]);
                         ("statistics", JObj [("goals", JInt 1)])])
                  [("eventId", JInt 99); ("sourceFile", JStr "99.json")]
                  (JObj [("matchInfo",
                           JObj [("eventId", JInt 99); ("matchDate", JNull); ("season", JNull);
                                 ("round", JNull); ("homeTeam", JNull); ("awayTeam", JNull);
                                 ("finalScore", JStr "None x None")]);
                         ("playerPerformance",
                           JObj [("playerId", JNull); ("playerName", JStr "Scorer");
                                 ("playerTeam", JNull); ("position", JNull);
                                 ("jerseyNumber", JNull); ("isSubstitute", JBool false);
                                 ("statistics", JObj [("goals", JInt 1)])])])
                  (JObj fs)) as (fields & Hmeta & Hnn & _); [vm_compute; reflexivity|]
  end.
  by injection Hmeta as <-.
Defined.

(** The calls that one file of the directory contributes. *)
Definition file_calls (str : json → string) (basename : string → string)
    (dumps : json → string) (file : string * option json) : list add_call :=
  match file.2 with
  | Some match_data => (process_file str basename dumps file.1 match_data).1
  | None => []
  end.

Lemma process_directory_from str basename dumps files : ∀ acc,
  foldl (λ (acc : list add_call * list (string * result outcome))
           (file : string * option json),
           match file.2 with
           | Some match_data =>
               let run := process_file str basename dumps file.1 match_data in
               (acc.1 ++ run.1, acc.2 ++ [(file.1, run.2)])
           | None => (acc.1, acc.2 ++ [(file.1, Raise ValueError)])
           end) acc files
  = (acc.1 ++ concat (map (file_calls str basename dumps) files),
     acc.2 ++ map (λ file : string * option json,
                     (file.1, match file.2 with
                              | Some match_data =>
                                  (process_file str basename dumps file.1 match_data).2
                              | None => Raise ValueError
                              end)) files).
Proof.
  induction files as [|[path [match_data|]] files IH]; intros [calls reports]; cbn.
  - by rewrite !app_nil_r.
  - rewrite IH. cbn. unfold file_calls at 2. cbn. by rewrite <- !app_assoc.
  - rewrite IH. cbn. unfold file_calls at 2. cbn. by rewrite <- !app_assoc.
Qed.

(** A batch over a directory treats each file on its own: the calls of
    the run are the calls of the files one after the other, a file that does
    not decode contributing none and a file that raises only those made
    before the exception; and there is one report per file, in the order
    of the files. A bad file changes nothing for the others. *)
Theorem process_directory_per_file (str : json → string) (basename : string → string)
    (dumps : json → string) (files : list (string * option json)) :
  let run := process_and_embed_directory str basename dumps files in
  run.1 = concat (map (file_calls str basename dumps) files)
  ∧ map fst run.2 = map fst files
  ∧ ∀ more, (process_and_embed_directory str basename dumps (files ++ more)).1
            = run.1 ++ (process_and_embed_directory str basename dumps more).1.
Proof.
  cbn zeta. unfold process_and_embed_directory.
  split; [|split].
  - by rewrite process_directory_from.
  - rewrite process_directory_from. cbn. rewrite map_map. done.
  - intros more. rewrite !process_directory_from. cbn.
    by rewrite map_app, concat_app.
Qed.

End Embedder.

(* ===================================================================== *)
(** ** Vector store ([pg_vector_store.py])                                *)
(* ===================================================================== *)

Module VectorStore.

(** *** Python control flow with local variables

    A block of statements runs in a state and either falls through with a
    value, leaves the function with [return], or raises. *)
Inductive flow (R A : Type) : Type :=
| Val (a : A)
| Ret (r : R)
| Exc (e : exn).
Arguments Val {R A} a.
Arguments Ret {R A} r.
Arguments Exc {R A} e.

Section control.
Context {St R : Type}.

Definition py (A : Type) : Type := St → St * flow R A.

Definition pure {A} (a : A) : py A := λ st, (st, Val a).

Definition pbind {A B} (m : py A) (k : A → py B) : py B :=
  λ st,
    match m st with
    | (st', Val a) => k a st'
    | (st', Ret r) => (st', Ret r)
    | (st', Exc e) => (st', Exc e)
    end.

(** [return r] and [raise e] *)
Definition ret {A} (r : R) : py A := λ st, (st, Ret r).
Definition raise {A} (e : exn) : py A := λ st, (st, Exc e).

(** [try: body except Exception: handler]: what the handler does replaces
    the exception, also when the handler itself raises. *)
Definition try_except {A} (body : py A) (handler : exn → py A) : py A :=
  λ st,
    match body st with
    | (st', Exc e) => handler e st'
    | other => other
    end.

(** [try: body finally: final]: [final] runs however [body] ends; when
    [final] raises or returns, that replaces the way [body] ended. *)
Definition try_finally {A} (body : py A) (final : py unit) : py A :=
  λ st,
    match body st with
    | (st', ending) =>
        match final st' with
        | (st'', Val _) => (st'', ending)
        | (st'', Ret r) => (st'', Ret r)
        | (st'', Exc e) => (st'', Exc e)
        end
    end.

(** [for x in xs: acc = body(acc, x)] *)
Fixpoint for_loop {A B} (body : A → B → py A) (acc : A) (xs : list B) : py A :=
  match xs with
  | [] => pure acc
  | x :: rest => pbind (body acc x) (λ acc', for_loop body acc' rest)
  end.

End control.

Arguments py : clear implicits.

Notation "'let$' x ':=' m 'in' k" := (pbind m (λ x, k))
  (at level 10, x name, m at level 100, k at level 200, only parsing).

(** *** The store and its surroundings *)

Inductive log_entry : Type := LogInfo | LogWarning | LogError.

(** What the embedding service answers to [embed_content]: an exception,
    or [response.embeddings], a list of embeddings whose [values] may be
    missing. *)
Inductive api_response (F : Type) : Type :=
| ApiError
| ApiEmbeddings (embeddings : list (option (list F))).
Arguments ApiError {F}.
Arguments ApiEmbeddings {F} embeddings.

(** A search result, [langchain_core.documents.Document]. *)
Record Document : Type := mkDocument { page_content : string; metadata : json }.

Section store.

(** The floating-point numbers of the service and of the database, with
    the operations of the query: the distance [embedding <=> query],
    [1 - d], and the order that [>=] and [ORDER BY] use. *)
Variable F : Type.
Variable distance : list F → list F → F.
Variable one_minus : F → F.
Variable leb : F → F → bool.

(** A row of the table [aux.embeddings]. The [jsonb] column gives the
    metadata back as the dict that was written (the order of its keys is
    not kept by the database and plays no role here). *)
Record row : Type := Row {
  row_id : string;
  row_text : string;
  row_metadata : json;
  row_embedding : list F
}.

(** A statement waiting in the transaction of a connection. *)
Inductive db_op : Type :=
| Upsert (r : row)
| Delete (doc_id : string).

(** A [psycopg2] connection: its number among the connection attempts,
    whether it is open, and its uncommitted statements. A cursor is open or
    closed. *)
Record connection : Type := Connection {
  conn_no : nat;
  conn_open : bool;
  conn_pending : list db_op
}.

(** The world outside one call: the table, how many embedding calls and
    connection attempts were made, how many identifiers were drawn, and
    the log. *)
Record world : Type := World {
  rows : list row;
  embed_calls : nat;
  connections : nat;
  uuids : nat;
  log : list log_entry
}.

(** The local variables [conn] and [cur] of a method; [None] is an
    unbound name. *)
Record locals : Type := Locals {
  conn : option connection;
  cur : option bool
}.

Definition state : Type := world * locals.

(** The behaviour of the surroundings: the answer of the embedding
    service to its [n]-th call, whether the [n]-th connection attempt
    succeeds, whether the statement and the commit on the [n]-th connection
    succeed, and the [n]-th identifier of [uuid.uuid4()]. *)
Variable embed_api : nat → string → api_response F.
Variable connect_ok : nat → bool.
Variable statement_ok : nat → bool.
Variable commit_ok : nat → bool.
Variable uuid4 : nat → string.

Definition set_rows (rs : list row) (w : world) : world :=
  World rs (embed_calls w) (connections w) (uuids w) (log w).

Definition logger {R} (entry : log_entry) : py state R unit :=
  λ st, ((World (rows st.1) (embed_calls st.1) (connections st.1) (uuids st.1)
                (log st.1 ++ [entry]), st.2), Val tt).

(** [str(uuid.uuid4())] *)
Definition fresh_uuid {R} : py state R string :=
  λ st, ((World (rows st.1) (embed_calls st.1) (connections st.1) (S (uuids st.1))
                (log st.1), st.2), Val (uuid4 (uuids st.1))).

(** [INSERT ... ON CONFLICT (id) DO UPDATE] and [DELETE ... WHERE id = ...]
    on the table. *)
Fixpoint upsert (r : row) (table : list row) : list row :=
  match table with
  | [] => [r]
  | r' :: rest =>
      if String.eqb (row_id r) (row_id r') then r :: rest else r' :: upsert r rest
  end.

Definition apply_op (table : list row) (op : db_op) : list row :=
  match op with
  | Upsert r => upsert r table
  | Delete doc_id => filter (λ r, String.eqb (row_id r) doc_id = false) table
  end.

(** *** [embed] *)

(** The vector that [embed] returns at the [n]-th call of the service:
    the first embedding when it has 768 values, the empty list in every
    other case. *)
Definition embed_result (n : nat) (text : string) : list F :=
  match embed_api n text with
  | ApiError => []
  | ApiEmbeddings [] => []
  | ApiEmbeddings (None :: _) => []
  | ApiEmbeddings (Some values :: _) =>
      if (length values =? 768)%nat then values else []
  end.

(** [PgVectorStore.embed]: every failure is logged and gives [[]]. *)
Definition embed {R} (text : string) : py state R (list F) :=
  λ st,
    let n := embed_calls st.1 in
    let called := World (rows st.1) (S n) (connections st.1) (uuids st.1) (log st.1) in
    match embed_api n text with
    | ApiError =>
        (let$ _ := logger LogError in let$ _ := logger LogError in pure []) (called, st.2)
    | ApiEmbeddings [] => (let$ _ := logger LogError in pure []) (called, st.2)
    | ApiEmbeddings (None :: _) =>
        (let$ _ := logger LogError in let$ _ := logger LogError in pure []) (called, st.2)
    | ApiEmbeddings (Some values :: _) =>
        if (length values =? 768)%nat then ((called, st.2), Val values)
        else (let$ _ := logger LogError in pure []) (called, st.2)
    end.

(** *** The database driver *)

(** [self._get_connection()]: a failure is logged twice and raised
    again. *)
Definition _get_connection {R} : py state R connection :=
  λ st,
    let n := connections st.1 in
    let tried := World (rows st.1) (embed_calls st.1) (S n) (uuids st.1) (log st.1) in
    if connect_ok n then ((tried, st.2), Val (Connection n true []))
    else (let$ _ := logger LogError in
          let$ _ := logger LogError in
          raise DatabaseError) (tried, st.2).

(** [conn = ...] *)
Definition set_conn {R} (c : connection) : py state R unit :=
  λ st, ((st.1, Locals (Some c) (cur st.2)), Val tt).

(** Reading the local [conn]: an unbound name raises. *)
Definition the_conn {R} : py state R connection :=
  λ st,
    match conn st.2 with
    | Some c => (st, Val c)
    | None => (st, Exc UnboundLocalError)
    end.

Definition the_cur {R} : py state R bool :=
  λ st,
    match cur st.2 with
    | Some open => (st, Val open)
    | None => (st, Exc UnboundLocalError)
    end.

(** [cur = conn.cursor()] *)
Definition conn_cursor {R} : py state R unit :=
  let$ c := the_conn in
  if conn_open c then λ st, ((st.1, Locals (conn st.2) (Some true)), Val tt)
  else raise DatabaseError.

(** [cur.execute(statement)] for a statement that changes the table: it
    joins the transaction of the connection, or fails. *)
Definition cur_execute {R} (op : db_op) : py state R unit :=
  let$ open := the_cur in
  let$ c := the_conn in
  if open && conn_open c && statement_ok (conn_no c) then
    set_conn (Connection (conn_no c) true (conn_pending c ++ [op]))
  else raise DatabaseError.

(** [conn.commit()]: the waiting statements reach the table, or the
    commit fails. *)
Definition conn_commit {R} : py state R unit :=
  let$ c := the_conn in
  if conn_open c && commit_ok (conn_no c) then
    λ st, ((set_rows (foldl apply_op (rows st.1) (conn_pending c)) st.1,
            Locals (Some (Connection (conn_no c) true [])) (cur st.2)), Val tt)
  else raise DatabaseError.

(** [conn.rollback()]: fails on a closed connection. *)
Definition conn_rollback {R} : py state R unit :=
  let$ c := the_conn in
  if conn_open c then set_conn (Connection (conn_no c) true [])
  else raise DatabaseError.

(** [cur.close()] and [conn.close()]; closing twice is allowed, and
    closing a connection drops what was not committed. *)
Definition cur_close {R} : py state R unit :=
  let$ _ := the_cur in
  λ st, ((st.1, Locals (conn st.2) (Some false)), Val tt).

Definition conn_close {R} : py state R unit :=
  let$ c := the_conn in
  set_conn (Connection (conn_no c) false []).

(** Calling a method: the locals start unbound and end with the call; a
    body that falls off its end returns [None]. *)
Definition call {R} (body : py state R unit) (w : world) : world * result (option R) :=
  match body (w, Locals None None) with
  | (st, Val _) => (st.1, Ok None)
  | (st, Ret r) => (st.1, Ok (Some r))
  | (st, Exc e) => (st.1, Raise e)
  end.

(** *** [add_document] *)

Fixpoint str_take (n : nat) (s : string) : string :=
  match n, s with
  | S n', String c rest => String c (str_take n' rest)
  | _, _ => EmptyString
  end.

Fixpoint str_drop (n : nat) (s : string) : string :=
  match n, s with
  | S n', String _ rest => str_drop n' rest
  | _, _ => s
  end.

(** The windows [text[i:i+size]] for [i = 0, size, 2*size, ...] below the
    length of [text]; [fuel] bounds their number. *)
Fixpoint windows (fuel : nat) (size : nat) (text : string) : list string :=
  match fuel, text with
  | S fuel', String _ _ => str_take size text :: windows fuel' size (str_drop size text)
  | _, _ => []
  end.

(** [[text[i:i + max_chunk_size] for i in range(0, len(text), max_chunk_size)]]:
    a zero step is a [ValueError], a negative step an empty range. *)
Definition split_chunks (text : string) (max_chunk_size : Z) : result (list string) :=
  if max_chunk_size =? 0 then Raise ValueError
  else if max_chunk_size <? 0 then Ok []
  else Ok (windows (String.length text) (Z.to_nat max_chunk_size) text).

(** The [try]/[except]/[finally] around the upsert of one row. *)
Definition store_row (r : row) : py state (list string) unit :=
  try_finally
    (try_except
       (let$ c := _get_connection in
        let$ _ := set_conn c in
        let$ _ := conn_cursor in
        let$ _ := cur_execute (Upsert r) in
        let$ _ := conn_commit in
        logger LogInfo)
       (λ e,
          let$ _ := conn_rollback in
          let$ _ := logger LogError in
          let$ _ := logger LogError in
          ret []))
    (let$ _ := cur_close in conn_close).

(** The body of the loop over [enumerate(chunks)]. *)
Definition add_chunk (metadata : json) (doc_id_list : list string) (item : nat * string)
  : py state (list string) (list string) :=
  let$ chunk_id := fresh_uuid in
  match metadata with
  | JObj fields =>
      let chunk_metadata := set_field "chunk_index" (JInt (Z.of_nat item.1)) fields in
      let$ parent :=
        if truthy (dict_get fields "parent_id" JNull)
        then pure (dict_get fields "parent_id" JNull)
        else let$ u := fresh_uuid in pure (JStr u) in
      let chunk_metadata := set_field "parent_id" parent chunk_metadata in
      let$ embedding := embed item.2 in
      match embedding with
      | [] => let$ _ := logger LogError in ret []
      | _ :: _ =>
          let$ _ := store_row (Row chunk_id item.2 (JObj chunk_metadata) embedding) in
          pure (doc_id_list ++ [chunk_id])
      end
  | _ => raise TypeError
  end.

Definition add_document (text : string) (metadata : json) (max_chunk_size : Z)
  : py state (list string) unit :=
  try_except
    (let$ chunks :=
       match split_chunks text max_chunk_size with
       | Ok chunks => pure chunks
       | Raise e => raise e
       end in
     let$ _ := logger LogInfo in
     let$ doc_id_list :=
       for_loop (add_chunk metadata) [] (zip (seq 0 (length chunks)) chunks) in
     ret doc_id_list)
    (λ e,
       let$ _ := logger LogError in
       let$ _ := logger LogError in
       ret []).

(** *** [delete_document] *)

Definition delete_document (doc_id : string) : py state unit unit :=
  try_finally
    (try_except
       (let$ c := _get_connection in
        let$ _ := set_conn c in
        let$ _ := conn_cursor in
        let$ _ := cur_execute (Delete doc_id) in
        let$ _ := conn_commit in
        logger LogInfo)
       (λ e,
          let$ _ := conn_rollback in
          let$ _ := logger LogError in
          logger LogError))
    (let$ _ := cur_close in conn_close).

(** *** [search_with_score] *)

(** The text of a [jsonb] value that is neither a string, a boolean, an
    integer nor [null], as [->>] prints it. *)
Variable jsonb_text : json → string.

(** [metadata ->> key]: [None] is the SQL [NULL]. *)
Definition field_text (meta : json) (key : string) : option string :=
  match meta with
  | JObj fields =>
      match lookup_field key fields with
      | Some (JStr s) => Some s
      | Some JNull => None
      | Some (JBool b) => Some (if b then "true" else "false")
      | Some (JInt z) => Some (pretty z)
      | Some v => Some (jsonb_text v)
      | None => None
      end
  | _ => None
  end.

(** [1 - (embedding <=> query)] *)
Definition similarity (query_embedding : list F) (r : row) : F :=
  one_minus (distance (row_embedding r) query_embedding).

(** The [WHERE] clause: one [metadata ->> key = value] per entry of the
    filter, whose values are strings, and the cutoff when there is one. *)
Definition matches_filter (flt : list (string * string)) (r : row) : bool :=
  forallb (λ kv : string * string,
             bool_decide (field_text (row_metadata r) kv.1 = Some kv.2)) flt.

Definition above_threshold (query_embedding : list F) (score_threshold : option F)
    (r : row) : bool :=
  match score_threshold with
  | Some t => leb t (similarity query_embedding r)
  | None => true
  end.

Definition by_similarity_desc (query_embedding : list F) (a b : row) : Prop :=
  leb (similarity query_embedding b) (similarity query_embedding a) = true.

#[local] Instance by_similarity_desc_dec q a b : Decision (by_similarity_desc q a b) :=
  decide (leb (similarity q b) (similarity q a) = true).

(** The rows that the [SELECT] gives, with their similarity:
    [WHERE ... ORDER BY similarity DESC LIMIT k]. *)
Definition select_rows (query_embedding : list F) (flt : list (string * string))
    (score_threshold : option F) (k : nat) (table : list row) : list (row * F) :=
  map (λ r, (r, similarity query_embedding r))
    (take k
       (merge_sort (by_similarity_desc query_embedding)
          (filter (λ r, matches_filter flt r && above_threshold query_embedding score_threshold r
                        = true) table))).

(** [cur.execute(sql, params)] and [cur.fetchall()] for the query. The
    text [[]] of an empty vector is not a vector for the database. *)
Definition cur_select {R} (query_embedding : list F) (flt : list (string * string))
    (score_threshold : option F) (k : nat) : py state R (list (row * F)) :=
  let$ open := the_cur in
  let$ c := the_conn in
  match query_embedding with
  | [] => raise DatabaseError
  | _ :: _ =>
      if open && conn_open c && statement_ok (conn_no c) then
        λ st, (st, Val (select_rows query_embedding flt score_threshold k (rows st.1)))
      else raise DatabaseError
  end.

(** The body of the loop over the fetched rows: the metadata must be a
    dict ([metadata_json.get] is called on it) and receives the row id
    under ["id"]. *)
Definition to_document {R} (docs : list (Document * F)) (found : row * F)
  : py state R (list (Document * F)) :=
  match row_metadata found.1 with
  | JObj fields =>
      pure (docs ++ [(mkDocument (row_text found.1)
                        (JObj (set_field "id" (JStr (row_id found.1)) fields)),
                      found.2)])
  | _ => raise AttributeError
  end.

Definition search_with_score (query : string) (flt : list (string * string)) (k : nat)
    (score_threshold : option F) : py state (list (Document * F)) unit :=
  if String.eqb query "" then
    let$ _ := logger LogWarning in
    ret []
  else
    try_finally
      (try_except
         (let$ query_embedding := embed query in
          let$ c := _get_connection in
          let$ _ := set_conn c in
          let$ _ := conn_cursor in
          let$ results := cur_select query_embedding flt score_threshold k in
          let$ docs_with_scores := for_loop to_document [] results in
          let$ _ := logger LogInfo in
          ret docs_with_scores)
         (λ e,
            let$ _ := logger LogError in
            let$ _ := logger LogError in
            ret []))
      (let$ _ := cur_close in conn_close).

(** *** Failures of [delete_document] (C9) *)

(** Without a connection the handler itself raises: [conn.rollback()]
    reads the unbound [conn], and then [cur.close()] in the [finally] block
    reads the unbound [cur]. *)
Lemma delete_document_unreachable (w : world) (doc_id : string) :
  connect_ok (connections w) = false →
  (call (delete_document doc_id) w).2 = Raise UnboundLocalError.
Proof.
  intros Hdown. unfold call, delete_document, try_finally, try_except, pbind,
    _get_connection. simpl. rewrite Hdown. reflexivity.
Qed.

(** With a connection every failure of the statement or of the commit is
    logged and swallowed. *)
Lemma delete_document_connected (w : world) (doc_id : string) :
  connect_ok (connections w) = true →
  (call (delete_document doc_id) w).2 = Ok None.
Proof.
  intros Hup. unfold call, delete_document, try_finally, try_except, pbind,
    _get_connection. simpl. rewrite Hup. simpl.
  unfold cur_execute, conn_commit, pbind. simpl.
  destruct (statement_ok (connections w)); simpl; [|reflexivity].
  destruct (commit_ok (connections w)); reflexivity.
Qed.

(** *** Failures of [add_document] (C3) *)

(** The upsert of a row goes through when the connection, the statement
    and the commit all succeed. *)
Definition storage_ok (n : nat) : bool :=
  connect_ok n && statement_ok n && commit_ok n.

(** A block that did not fall through: it returned the empty list or
    raised. *)
Definition aborted {A} (f : flow (list string) A) : Prop :=
  f = Ret [] ∨ ∃ e, f = Exc e.

Lemma embed_spec {R} (text : string) (st : state) :
  ∃ w', @embed R text st = ((w', st.2), Val (embed_result (embed_calls st.1) text))
        ∧ rows w' = rows st.1
        ∧ embed_calls w' = S (embed_calls st.1)
        ∧ connections w' = connections st.1
        ∧ uuids w' = uuids st.1.
Proof.
  unfold embed, embed_result, pbind, logger, pure. destruct st as [w l]. simpl.
  destruct (embed_api (embed_calls w) text) as [|[|[values|] rest]]; simpl;
    try (eexists; split; [reflexivity|]; simpl; done).
  destruct (length values =? 768)%nat; simpl;
    eexists; (split; [reflexivity|]); simpl; done.
Qed.

Lemma store_row_spec (r : row) (st : state) :
  ∃ st' f,
    store_row r st = (st', f)
    ∧ embed_calls st'.1 = embed_calls st.1
    ∧ connections st'.1 = S (connections st.1)
    ∧ uuids st'.1 = uuids st.1
    ∧ if storage_ok (connections st.1)
      then f = Val tt ∧ rows st'.1 = upsert r (rows st.1)
      else aborted f ∧ rows st'.1 = rows st.1.
Proof.
  destruct st as [w [c cu]].
  unfold store_row, storage_ok, aborted, try_finally, try_except, pbind, _get_connection,
    conn_cursor, cur_execute, conn_commit, conn_rollback, cur_close, conn_close,
    the_conn, the_cur, set_conn, logger, ret, raise, pbind.
  simpl.
  destruct (connect_ok (connections w)) eqn:Hc; simpl.
  - destruct (statement_ok (connections w)) eqn:Hs; simpl.
    + destruct (commit_ok (connections w)) eqn:Hm; simpl;
        do 2 eexists; (split; [reflexivity|]); simpl; eauto 10.
    + do 2 eexists; (split; [reflexivity|]); simpl; eauto 10.
  - destruct c as [[no [] pending]|], cu as [open|]; simpl;
      do 2 eexists; (split; [reflexivity|]); simpl; eauto 10.
Qed.

(** One turn of the loop of [add_document] for a dict of metadata. *)
Lemma add_chunk_spec fields (acc : list string) (item : nat * string) (st : state) :
  ∃ st' f,
    add_chunk (JObj fields) acc item st = (st', f)
    ∧ embed_calls st'.1 = S (embed_calls st.1)
    ∧ match embed_result (embed_calls st.1) item.2 with
      | [] =>
          f = Ret [] ∧ rows st'.1 = rows st.1 ∧ connections st'.1 = connections st.1
      | _ :: _ =>
          connections st'.1 = S (connections st.1)
          ∧ if storage_ok (connections st.1)
            then ∃ r, f = Val (acc ++ [row_id r])
                      ∧ rows st'.1 = upsert r (rows st.1)
                      ∧ row_text r = item.2
                      ∧ row_embedding r = embed_result (embed_calls st.1) item.2
            else aborted f ∧ rows st'.1 = rows st.1
      end.
Proof.
  destruct st as [w l]. unfold add_chunk.
  set (parent := if truthy (dict_get fields "parent_id" JNull)
                 then pure (dict_get fields "parent_id" JNull)
                 else pbind fresh_uuid (λ u, pure (JStr u))).
  assert (∀ st0 : state, ∃ w1 p, parent st0 = ((w1, st0.2), Val p)
            ∧ rows w1 = rows st0.1 ∧ embed_calls w1 = embed_calls st0.1
            ∧ connections w1 = connections st0.1) as Hparent.
  { intros [w0 l0]. unfold parent. destruct (truthy _); unfold pbind, fresh_uuid, pure;
      simpl; do 2 eexists; (split; [reflexivity|]); done. }
  unfold pbind at 1. unfold fresh_uuid at 1. simpl.
  unfold pbind at 1.
  match goal with
  | |- context [parent ?s] => destruct (Hparent s) as (w1 & p & -> & Hr1 & He1 & Hc1)
  end.
  simpl in Hr1, He1, Hc1. simpl.
  unfold pbind at 1.
  match goal with
  | |- context [embed ?t ?s] =>
      destruct (embed_spec (R := list string) t s) as (w2 & -> & Hr2 & He2 & Hc2 & _)
  end.
  simpl in Hr2, He2, Hc2. cbn [fst snd]. rewrite He1.
  destruct (embed_result (embed_calls w) item.2) as [|x xs] eqn:Hemb.
  - unfold pbind, logger, ret. simpl. do 2 eexists. split; [reflexivity|]. simpl.
    rewrite He2, He1, Hr2, Hr1, Hc2, Hc1. done.
  - unfold pbind at 1.
    match goal with
    | |- context [store_row ?r ?s] =>
        destruct (store_row_spec r s) as (st3 & f3 & -> & He3 & Hc3 & _ & Hok)
    end.
    simpl in He3, Hc3, Hok. rewrite Hc2, Hc1 in Hok, Hc3. rewrite Hr2, Hr1 in Hok.
    rewrite He2, He1 in He3.
    destruct (storage_ok (connections w)).
    + destruct Hok as [-> Hrows]. unfold pure. do 2 eexists. split; [reflexivity|].
      simpl. split; [done|]. split; [done|].
      eexists (Row _ _ _ _). simpl. split; [reflexivity|]. split; [exact Hrows|]. done.
    + destruct Hok as [Hab Hrows].
      destruct Hab as [-> | [e ->]]; do 2 eexists; (split; [reflexivity|]);
        simpl; unfold aborted; eauto 10.
Qed.

Lemma pbind_run {St R A B} (m : py St R A) (k : A → py St R B) st st1 f1 :
  m st = (st1, f1) →
  pbind m k st = match f1 with
                 | Val a => k a st1
                 | Ret r => (st1, Ret r)
                 | Exc e => (st1, Exc e)
                 end.
Proof. unfold pbind. by intros ->. Qed.

(** The loop of [add_document] when the embedding of the sub-chunk at
    position [j] fails. *)
Lemma add_chunks_embedding_failure fields (cs : list string) :
  ∀ (j : nat) (cj : string) (i : nat) (acc : list string) (st st' : state) f,
    cs !! j = Some cj →
    embed_result (embed_calls st.1 + j) cj = [] →
    for_loop (add_chunk (JObj fields)) acc (zip (seq i (length cs)) cs) st = (st', f) →
    aborted f
    ∧ (j = 0%nat → rows st'.1 = rows st.1)
    ∧ ((∀ i' ci, (i' < j)%nat → cs !! i' = Some ci →
          embed_result (embed_calls st.1 + i') ci ≠ []
          ∧ storage_ok (connections st.1 + i') = true) →
       ∃ written,
         rows st'.1 = foldl (λ table r, upsert r table) (rows st.1) written
         ∧ map row_text written = take j cs).
Proof.
  induction cs as [|c cs IH]; intros j cj i acc st st' f Hj Hfail Hrun; [done|].
  cbn [length seq zip zip_with for_loop] in Hrun.
  destruct (add_chunk_spec fields acc (i, c) st) as (st1 & f1 & Hstep & Hec & Hcase).
  rewrite (pbind_run _ _ _ _ _ Hstep) in Hrun. cbn [fst snd] in Hcase.
  destruct j as [|j].
  - injection Hj as ->. rewrite Nat.add_0_r in Hfail. rewrite Hfail in Hcase.
    destruct Hcase as (-> & Hrows & _). injection Hrun as <- <-.
    split; [by left|]. split; [done|]. intros _. exists []. done.
  - cbn in Hj.
    destruct (embed_result (embed_calls st.1) c) as [|x xs] eqn:Hemb.
    + destruct Hcase as (-> & Hrows & _). injection Hrun as <- <-.
      split; [by left|]. split; [done|]. intros Hbefore.
      destruct (Hbefore 0%nat c) as [Hne _]; [lia|done|].
      rewrite Nat.add_0_r in Hne. done.
    + destruct Hcase as [Hcn Hcase].
      destruct (storage_ok (connections st.1)) eqn:Hok.
      * destruct Hcase as (r & -> & Hrows & Htext & _).
        assert (embed_result (embed_calls st1.1 + j) cj = []) as Hfail'.
        { rewrite Hec. by replace (S (embed_calls st.1) + j)%nat
            with (embed_calls st.1 + S j)%nat by lia. }
        destruct (IH j cj (S i) _ st1 st' f Hj Hfail' Hrun) as (Hab & _ & Hprefix).
        split; [done|]. split; [done|]. intros Hbefore.
        destruct Hprefix as (written & Hw & Ht).
        { intros i' ci Hlt Hci. rewrite Hec, Hcn.
          replace (S (embed_calls st.1) + i')%nat with (embed_calls st.1 + S i')%nat by lia.
          replace (S (connections st.1) + i')%nat with (connections st.1 + S i')%nat by lia.
          apply Hbefore; [lia|done]. }
        exists (r :: written). cbn. rewrite <- Hrows, Hw, Htext, Ht. done.
      * destruct Hcase as [Hab Hrows].
        assert (st' = st1 ∧ aborted f) as [-> Habf].
        { destruct Hab as [-> | [e ->]]; injection Hrun as <- <-;
            (split; [done|]); unfold aborted; eauto. }
        split; [done|]. split; [done|]. intros Hbefore.
        destruct (Hbefore 0%nat c) as [_ Hs]; [lia|done|].
        rewrite Nat.add_0_r in Hs. congruence.
Qed.

(** With metadata that is not a dict, [dict(metadata)] raises in the
    first turn and nothing is written. *)
Lemma add_chunks_not_dict (md : json) (c : string) (cs : list (nat * string))
    (i : nat) (acc : list string) (st : state) :
  (∀ fields, md ≠ JObj fields) →
  ∃ st', for_loop (add_chunk md) acc ((i, c) :: cs) st = (st', Exc TypeError)
         ∧ rows st'.1 = rows st.1.
Proof.
  intros Hmd. cbn [for_loop]. unfold pbind, add_chunk, pbind, fresh_uuid, raise.
  destruct md; try (eexists; split; [reflexivity|done]).
  by destruct (Hmd fields).
Qed.

(** C3, amended. When the embedding of some sub-chunk comes back empty or
    with a dimension other than 768, [add_document] returns the empty id
    list. It has written no row when that sub-chunk is the first one; the
    rows of the sub-chunks before it, whose embedding and upsert went
    through, were each committed on their own and stay in the table. *)
Theorem add_document_embedding_failure (w : world) (text : string) (md : json)
    (max_chunk_size : Z) (chunks : list string) (j : nat) (cj : string) :
  split_chunks text max_chunk_size = Ok chunks →
  chunks !! j = Some cj →
  embed_result (embed_calls w + j) cj = [] →
  let out := call (add_document text md max_chunk_size) w in
  out.2 = Ok (Some [])
  ∧ (j = 0%nat → rows out.1 = rows w)
  ∧ ((∃ fields, md = JObj fields) →
     (∀ i ci, (i < j)%nat → chunks !! i = Some ci →
        embed_result (embed_calls w + i) ci ≠ []
        ∧ storage_ok (connections w + i) = true) →
     ∃ written,
       rows out.1 = foldl (λ table r, upsert r table) (rows w) written
       ∧ map row_text written = take j chunks).
Proof.
  intros Hsplit Hj Hfail. unfold call, add_document, try_except.
  rewrite Hsplit.
  set (st0 := (World (rows w) (embed_calls w) (connections w) (uuids w)
                 (log w ++ [LogInfo]), Locals None None)).
  assert (∀ k : list string → py state (list string) unit,
            pbind (pure chunks) (λ chunks0, pbind (logger LogInfo) (λ _, k chunks0))
              (w, Locals None None) = k chunks st0) as Hstart by reflexivity.
  rewrite Hstart. clear Hstart.
  destruct (for_loop (add_chunk md) [] (zip (seq 0 (length chunks)) chunks) st0)
    as [st' f] eqn:Hloop.
  rewrite (pbind_run _ _ _ _ _ Hloop).
  assert (aborted f
          ∧ (j = 0%nat → rows st'.1 = rows w)
          ∧ ((∃ fields, md = JObj fields) →
             (∀ i ci, (i < j)%nat → chunks !! i = Some ci →
                embed_result (embed_calls w + i) ci ≠ []
                ∧ storage_ok (connections w + i) = true) →
             ∃ written,
               rows st'.1 = foldl (λ table r, upsert r table) (rows w) written
               ∧ map row_text written = take j chunks)) as (Hab & Hzero & Hprefix).
  { assert ((∃ fields, md = JObj fields) ∨ (∀ fields, md ≠ JObj fields))
      as [[fields ->]|Hnd] by (destruct md; eauto; right; done).
    - destruct (add_chunks_embedding_failure fields chunks j cj 0%nat [] st0 st' f
                  Hj Hfail Hloop) as (Hab & Hzero & Hprefix).
      split; [done|]. split; [done|]. intros _. exact Hprefix.
    - destruct chunks as [|c cs]; [done|].
      destruct (add_chunks_not_dict md c (zip (seq 1 (length cs)) cs) 0%nat [] st0)
        as (st1 & Hrun & Hrows).
      { exact Hnd. }
      cbn [length seq zip zip_with] in Hloop. rewrite Hrun in Hloop.
      injection Hloop as <- <-.
      split; [right; eauto|]. split; [done|]. intros [fields ->]. by destruct (Hnd fields). }
  destruct Hab as [-> | [e ->]]; cbn [fst snd].
  - split; [done|]. split; [exact Hzero|exact Hprefix].
  - unfold pbind, logger, ret. cbn [fst snd]. split; [done|].
    split; [exact Hzero|exact Hprefix].
Qed.

(** *** Results of [search_with_score] (C8) *)

Section search.

(** The order of the database on floating-point numbers is total and
    transitive ([NaN] sorts above every number). *)
Hypothesis leb_total : ∀ x y, leb x y = true ∨ leb y x = true.
Hypothesis leb_trans : ∀ x y z, leb x y = true → leb y z = true → leb x z = true.

#[local] Instance by_similarity_desc_total q : Total (by_similarity_desc q).
Proof. intros a b. unfold by_similarity_desc. apply leb_total. Qed.

#[local] Instance by_similarity_desc_trans q : Transitive (by_similarity_desc q).
Proof. intros a b c Hab Hbc. unfold by_similarity_desc in *. by eapply leb_trans. Qed.

(** A fetched row as the pair that the method returns for it. *)
Definition hit_of (found : row * F) (hit : Document * F) : Prop :=
  ∃ fields,
    row_metadata found.1 = JObj fields
    ∧ hit = (mkDocument (row_text found.1)
               (JObj (set_field "id" (JStr (row_id found.1)) fields)),
             found.2).

Lemma to_documents_spec {R} (found : list (row * F)) (acc : list (Document * F))
    (st : state) :
  (∃ hits, @for_loop state R _ _ to_document acc found st = (st, Val (acc ++ hits))
           ∧ Forall2 hit_of found hits)
  ∨ @for_loop state R _ _ to_document acc found st = (st, Exc AttributeError).
Proof.
  revert acc. induction found as [|fr found IH]; intros acc; cbn [for_loop].
  - left. exists []. rewrite app_nil_r. split; [done|constructor].
  - destruct (row_metadata fr.1) as [| | | | | |fields] eqn:Hmeta.
    7: { assert (@to_document R acc fr st
                 = (st, Val (acc ++ [(mkDocument (row_text fr.1)
                                        (JObj (set_field "id" (JStr (row_id fr.1)) fields)),
                                      fr.2)]))) as Hstep
           by (unfold to_document; by rewrite Hmeta).
         rewrite !(pbind_run _ _ _ _ _ Hstep).
         destruct (IH (acc ++ [(mkDocument (row_text fr.1)
                                  (JObj (set_field "id" (JStr (row_id fr.1)) fields)),
                                fr.2)]))
           as [(hits & -> & Hhits) | ->]; [|by right].
         left. eexists (_ :: hits). rewrite <- app_assoc. split; [reflexivity|].
         constructor; [|done]. by exists fields. }
    all: right; unfold pbind, to_document; by rewrite Hmeta.
Qed.

Lemma select_rows_length q flt thr k table :
  (length (select_rows q flt thr k table) ≤ k)%nat.
Proof. unfold select_rows. rewrite length_map, length_take. lia. Qed.

Lemma select_rows_sorted q flt thr k table :
  StronglySorted (λ a b : row * F, leb b.2 a.2 = true) (select_rows q flt thr k table).
Proof.
  unfold select_rows.
  apply (StronglySorted_fmap _ (by_similarity_desc q)); [by intros a b|].
  set (sorted := merge_sort _ _).
  assert (StronglySorted (by_similarity_desc q) sorted) as Hs
    by (apply StronglySorted_merge_sort; apply _).
  rewrite <- (take_drop k sorted) in Hs. by apply StronglySorted_app_1_l in Hs.
Qed.

Lemma select_rows_elem q flt thr k table found :
  found ∈ select_rows q flt thr k table →
  found.1 ∈ table
  ∧ found.2 = similarity q found.1
  ∧ matches_filter flt found.1 = true
  ∧ above_threshold q thr found.1 = true.
Proof.
  unfold select_rows. intros (r & -> & Hr)%list_elem_of_fmap. cbn [fst snd].
  apply subseteq_take in Hr. rewrite merge_sort_Permutation in Hr.
  apply list_elem_of_filter in Hr as [Hp Hr].
  apply andb_true_iff in Hp as [Hm Ht]. done.
Qed.

Lemma lookup_set_field_ne (k k' : string) (v : json) (fields : list (string * json)) :
  k ≠ k' → lookup_field k (set_field k' v fields) = lookup_field k fields.
Proof.
  intros Hne. induction fields as [|[k2 v2] rest IH]; cbn.
  - destruct (String.eqb_spec k k'); done.
  - destruct (String.eqb_spec k' k2) as [->|Hk2]; cbn.
    + destruct (String.eqb_spec k k2); done.
    + destruct (String.eqb_spec k k2); done.
Qed.

(** What one returned pair is, for the query vector [q]: a row of the
    table that passes the filter and the cutoff, with its text, its
    metadata stamped with the row id, and its similarity. *)
Definition is_hit (w : world) (q : list F) (flt : list (string * string))
    (score_threshold : option F) (hit : Document * F) : Prop :=
  ∃ r fields,
    r ∈ rows w
    ∧ row_metadata r = JObj fields
    ∧ hit.1 = mkDocument (row_text r) (JObj (set_field "id" (JStr (row_id r)) fields))
    ∧ hit.2 = similarity q r
    ∧ (∀ key value, (key, value) ∈ flt →
         field_text (row_metadata r) key = Some value
         ∧ (key ≠ "id" → field_text (metadata hit.1) key = Some value))
    ∧ (∀ t, score_threshold = Some t → leb t hit.2 = true).

Lemma hit_of_is_hit w q flt thr k found hit :
  found ∈ select_rows q flt thr k (rows w) → hit_of found hit → is_hit w q flt thr hit.
Proof.
  intros (Hin & Hsim & Hflt & Hthr)%select_rows_elem (fields & Hmeta & ->).
  exists found.1, fields. cbn [fst snd metadata].
  split; [done|]. split; [done|]. split; [done|]. split; [done|]. split.
  - intros key value Hkv. unfold matches_filter in Hflt.
    rewrite forallb_forall in Hflt. apply list_elem_of_In, Hflt in Hkv.
    apply bool_decide_eq_true in Hkv. cbn in Hkv. split; [done|].
    intros Hne. rewrite Hmeta in Hkv. unfold field_text in *.
    by rewrite lookup_set_field_ne.
  - intros t ->. unfold above_threshold in Hthr. by rewrite Hsim.
Qed.

Lemma search_with_score_connected (w : world) (query : string)
    (flt : list (string * string)) (k : nat) (score_threshold : option F) :
  query ≠ "" →
  connect_ok (connections w) = true →
  ∃ w' hits,
    call (search_with_score query flt k score_threshold) w = (w', Ok (Some hits))
    ∧ rows w' = rows w
    ∧ (hits = []
       ∨ Forall2 hit_of
           (select_rows (embed_result (embed_calls w) query) flt score_threshold k (rows w))
           hits).
Proof.
  intros Hq Hup. unfold call, search_with_score.
  destruct (String.eqb_spec query "") as [->|_]; [done|].
  unfold try_finally, try_except.
  destruct (embed_spec (R := list (Document * F)) query (w, Locals None None))
    as (w1 & Hemb & Hr1 & _ & Hc1 & _).
  cbn [fst snd] in Hemb, Hr1, Hc1.
  rewrite (pbind_run _ _ _ _ _ Hemb).
  set (q := embed_result (embed_calls w) query).
  set (st2 := (World (rows w1) (embed_calls w1) (S (connections w1)) (uuids w1) (log w1),
               Locals (Some (Connection (connections w1) true [])) (Some true))).
  assert (∀ K : py state (list (Document * F)) unit,
            pbind _get_connection
              (λ c, pbind (set_conn c) (λ _, pbind conn_cursor (λ _, K)))
              (w1, Locals None None) = K st2) as Hopen.
  { intros K. unfold pbind, _get_connection, set_conn, conn_cursor, the_conn, pbind.
    rewrite <- Hc1 in Hup. cbn. rewrite Hup. reflexivity. }
  rewrite Hopen. clear Hopen.
  destruct (@cur_select (list (Document * F)) q flt score_threshold k st2)
    as [st3 f3] eqn:Hsel.
  assert (st3 = st2
          ∧ (f3 = Val (select_rows q flt score_threshold k (rows w1))
             ∨ f3 = Exc DatabaseError)) as [-> Hf3].
  { unfold cur_select, pbind, the_cur, the_conn, raise in Hsel. cbn in Hsel.
    destruct q; [injection Hsel as <- <-; auto|].
    destruct (statement_ok (connections w1)); injection Hsel as <- <-; auto. }
  rewrite (pbind_run _ _ _ _ _ Hsel).
  destruct Hf3 as [-> | ->].
  - destruct (to_documents_spec (R := list (Document * F))
                (select_rows q flt score_threshold k (rows w1)) [] st2)
      as [(hits & Hloop & Hhits) | Hloop];
      rewrite (pbind_run _ _ _ _ _ Hloop).
    + do 2 eexists. split; [reflexivity|]. cbn. split; [done|].
      right. by rewrite <- Hr1.
    + do 2 eexists. split; [reflexivity|]. cbn. split; [done|]. by left.
  - do 2 eexists. split; [reflexivity|]. cbn. split; [done|]. by left.
Qed.

(** C8, amended. When the storage connection is obtained, a search with a
    non-empty query returns at most [k] pairs, in decreasing order of
    score; each pair is a row of the table with its text, its stored
    metadata stamped with the row id under ["id"], and as score one minus
    the distance between the query embedding and its embedding; the stored
    metadata of each has, for every key of the filter, the filter's value
    as text (so has the returned metadata, for every key other than
    ["id"]), and each score reaches the threshold when one is given. A
    search with the empty query returns the empty list, and the embedding
    service and the database are not used. *)
Theorem search_with_score_results (w : world) (query : string)
    (flt : list (string * string)) (k : nat) (score_threshold : option F) :
  (query ≠ "" →
   connect_ok (connections w) = true →
   ∃ w' hits,
     call (search_with_score query flt k score_threshold) w = (w', Ok (Some hits))
     ∧ rows w' = rows w
     ∧ (length hits ≤ k)%nat
     ∧ StronglySorted (λ a b : F, leb b a = true) (map snd hits)
     ∧ Forall (is_hit w (embed_result (embed_calls w) query) flt score_threshold) hits)
  ∧ (query = "" →
     call (search_with_score query flt k score_threshold) w
     = (World (rows w) (embed_calls w) (connections w) (uuids w) (log w ++ [LogWarning]),
        Ok (Some []))).
Proof.
  split; [|by intros ->].
  intros Hq Hup.
  destruct (search_with_score_connected w query flt k score_threshold Hq Hup)
    as (w' & hits & Hcall & Hrows & Hhits).
  exists w', hits. split; [done|]. split; [done|].
  destruct Hhits as [-> | Hhits].
  { split; [cbn; lia|]. split; constructor. }
  set (q := embed_result (embed_calls w) query) in *.
  set (found := select_rows q flt score_threshold k (rows w)) in *.
  assert (map snd hits = map snd found) as Hscores.
  { clear -Hhits. induction Hhits as [|fr hit found hits Hhit _ IH]; cbn; [done|].
    destruct Hhit as (fields & _ & ->). by rewrite IH. }
  split; [|split].
  - rewrite <- (Forall2_length _ _ _ Hhits). apply select_rows_length.
  - rewrite Hscores.
    apply (StronglySorted_fmap _ (λ a b : row * F, leb b.2 a.2 = true)); [by intros a b|].
    apply select_rows_sorted.
  - apply Forall_forall. intros hit Hin.
    apply list_elem_of_lookup in Hin as [i Hi].
    destruct (Forall2_lookup_r _ _ _ _ _ Hhits Hi) as (fr & Hfr & Hhit).
    eapply hit_of_is_hit; [|exact Hhit]. by eapply list_elem_of_lookup_2.
Qed.

End search.

End store.

(** A database that refuses every connection. *)
Definition unreachable : nat → bool := λ _, false.
Definition healthy : nat → bool := λ _, true.

(** An embedding service whose first call gives 768 values and whose
    later calls give three; identifiers numbered in the order drawn; the
    empty table. *)
Definition first_call_only (n : nat) (text : string) : api_response Z :=
  if (n =? 0)%nat then ApiEmbeddings [Some (repeat 1 768)]
  else ApiEmbeddings [Some [1; 2; 3]].

Definition numbered_uuid (n : nat) : string := "uuid-" +:+ pretty n.

Definition empty_world : world Z := World Z [] 0 0 0 [].

(** C3, as stated, fails: a text of two sub-chunks whose second embedding
    has the wrong dimension leaves the row of the first sub-chunk in the
    table, although the call returns no id. *)
Lemma add_document_partial_rows_counterexample :
  let out := call Z (add_document Z first_call_only healthy healthy healthy numbered_uuid
                       "ab" (JObj []) 1) empty_world in
  split_chunks "ab" 1 = Ok ["a"; "b"]
  ∧ embed_result Z first_call_only 1 "b" = []
  ∧ out.2 = Ok (Some [])
  ∧ map (row_text Z) (rows Z out.1) = ["a"]
  ∧ rows Z out.1 ≠ rows Z empty_world.
Proof.
  cbv zeta. split; [reflexivity|]. split; [reflexivity|].
  split; [vm_compute; reflexivity|]. split; [vm_compute; reflexivity|].
  vm_compute. discriminate.
Qed.

Lemma add_document_embedding_failure_witness :
  let out := call Z (add_document Z first_call_only healthy healthy healthy numbered_uuid
                       "ab" (JObj []) 1) empty_world in
  out.2 = Ok (Some [])
  ∧ ∃ written,
      rows Z out.1 = foldl (λ table r, upsert Z r table) (rows Z empty_world) written
      ∧ map (row_text Z) written = ["a"].
Proof.
  destruct (add_document_embedding_failure Z first_call_only healthy healthy healthy
              numbered_uuid empty_world "ab" (JObj []) 1 ["a"; "b"] 1 "b")
    as (Hids & _ & Hrows); [reflexivity | reflexivity | reflexivity |].
  split; [exact Hids|]. apply Hrows; [by exists []|].
  intros i ci Hlt Hci. assert (i = 0%nat) as -> by lia.
  injection Hci as <-. split; [vm_compute; discriminate|reflexivity].
Defined.

(** Integer stand-ins for the floating-point operations, an embedding
    service that always answers with 768 values, and a table of two rows;
    the metadata of the first row has an ["id"] entry of its own. *)
Definition first_gap (a b : list Z) : Z := Z.abs (hd 0 a - hd 0 b).
Definition one_less (d : Z) : Z := 1 - d.
Definition always_768 (n : nat) (text : string) : api_response Z :=
  ApiEmbeddings [Some (repeat 1 768)].
Definition no_text (v : json) : string := "".

Definition two_rows : world Z :=
  World Z
    [Row Z "r1" "A scores" (JObj [("team", JStr "A"); ("id", JStr "x")]) [1];
     Row Z "r2" "B defends" (JObj [("team", JStr "B"); ("round", JInt 5)]) [3]]
    0 0 0 [].

(** C8, as stated, fails for a filter on ["id"]: the row is selected
    because its stored metadata has ["id"] equal to ["x"], and the
    metadata of the returned record has the row id ["r1"] there. *)
Lemma search_filter_on_id_counterexample :
  ∃ w' doc score,
    call Z (search_with_score Z first_gap one_less Z.leb always_768 healthy healthy no_text
              "who scored" [("id", "x")] 5 None) two_rows
    = (w', Ok (Some [(doc, score)]))
    ∧ field_text no_text (metadata doc) "id" = Some "r1"
    ∧ field_text no_text (metadata doc) "id" ≠ Some "x".
Proof.
  do 3 eexists. split; [vm_compute; reflexivity|].
  split; [reflexivity|discriminate].
Qed.

Lemma search_with_score_results_witness :
  ∃ w' hits,
    call Z (search_with_score Z first_gap one_less Z.leb always_768 healthy healthy no_text
              "who scored" [("team", "A")] 1 (Some 0)) two_rows
    = (w', Ok (Some hits))
    ∧ (length hits ≤ 1)%nat
    ∧ Forall (is_hit Z first_gap one_less Z.leb no_text two_rows
                (embed_result Z always_768 0 "who scored") [("team", "A")] (Some 0)) hits.
Proof.
  destruct (search_with_score_results Z first_gap one_less Z.leb always_768 healthy healthy
              no_text
              (λ x y, match Z.leb_spec x y with
                      | BoolSpecT _ _ => or_introl eq_refl
                      | BoolSpecF _ Hlt =>
                          or_intror (proj2 (Z.leb_le y x) (Z.lt_le_incl _ _ Hlt))
                      end)
              (λ x y z Hxy Hyz,
                 proj2 (Z.leb_le x z)
                   (Z.le_trans _ _ _ (proj1 (Z.leb_le x y) Hxy) (proj1 (Z.leb_le y z) Hyz)))
              two_rows "who scored" [("team", "A")] 1%nat (Some 0)) as [Hsearch _].
  destruct Hsearch as (w' & hits & Hcall & _ & Hlen & _ & Hhits);
    [discriminate | reflexivity |].
  by exists w', hits.
Defined.

(** C9 on the code. With the database unreachable, [delete_document]
    does not return: the [except] block and the [finally] block use [conn]
    and [cur], which were never bound, and the [UnboundLocalError] reaches
    the caller. *)
Theorem delete_document_propagates_when_unreachable :
  call Z (delete_document Z unreachable healthy healthy "doc-1") (World Z [] 0 0 0 [])
  = (World Z [] 0 1 0 [LogError; LogError], Raise UnboundLocalError).
Proof. vm_compute. reflexivity. Qed.

End VectorStore.
